(** * Frame cross-correlation and path classification

    A shallow embedding of [implementation.py]: the frame cross-correlator
    [correlate_adjacent_frames], the sequence builder
    [make_correlation_video] and the classifier [is_triangular_path].

    NumPy arrays are two-dimensional arrays with an explicit shape.  The
    float64 arithmetic of NumPy is an interface ([Float64Ops]); what only
    depends on which samples are combined is proved for every
    implementation of the interface, what depends on the arithmetic is
    proved for exact rationals ([Exact]) or evaluated on IEEE binary64
    ([Binary64]). *)

From Stdlib Require Import ZArith List Bool Arith Lia.
From Stdlib Require Import QArith Qcanon Qround.
From Stdlib Require Import Reals Psatz.
From Stdlib Require Import Floats.
Import ListNotations.

Set Implicit Arguments.
Local Open Scope nat_scope.

(** ** Two-dimensional arrays *)

Module NdArray.

(** A 2-D [ndarray]: its shape and its samples.  [get] is only read at
    indices inside the shape. *)
Record array (A : Type) : Type := mk {
  nrows : nat;
  ncols : nat;
  get : nat -> nat -> A
}.

Definition shape {A} (a : array A) : nat * nat := (nrows a, ncols a).

Definition size {A} (a : array A) : nat := nrows a * ncols a.

(** [a[i][j]], [None] out of range. *)
Definition lookup {A} (a : array A) (i j : nat) : option A :=
  if (i <? nrows a) && (j <? ncols a) then Some (get a i j) else None.

(** The samples in C (row-major) order, as [a.flatten()]. *)
Definition flatten {A} (a : array A) : list A :=
  flat_map (fun i => map (fun j => get a i j) (seq 0 (ncols a)))
           (seq 0 (nrows a)).

(** An array from its rows; a missing sample reads as [d]. *)
Definition of_rows {A} (d : A) (h w : nat) (rows : list (list A)) : array A :=
  mk h w (fun i j => nth j (nth i rows []) d).

(** [np.zeros((h, w))], [np.full_like(a, v)]. *)
Definition full {A} (h w : nat) (v : A) : array A := mk h w (fun _ _ => v).

Definition full_like {A B} (a : array A) (v : B) : array B :=
  full (nrows a) (ncols a) v.

(** An elementwise unary operation ([a / 255], [a.astype(t)]). *)
Definition amap {A B} (f : A -> B) (a : array A) : array B :=
  mk (nrows a) (ncols a) (fun i j => f (get a i j)).

(** An elementwise binary operation on two arrays of one shape
    ([a -= np.full_like(a, v)]). *)
Definition ewise {A B C} (f : A -> B -> C) (a : array A) (b : array B)
  : array C :=
  mk (nrows a) (ncols a) (fun i j => f (get a i j) (get b i j)).

(** A slice bound of Python: a negative bound counts from the end, and
    every bound is clipped to [0, n]. *)
Definition slice_index (n : nat) (i : Z) : nat :=
  if (i <? 0)%Z then Z.to_nat (Z.max 0 (i + Z.of_nat n))
  else Nat.min (Z.to_nat i) n.

(** [a[r0:r1, c0:c1]]: a slice that runs past the end is cut short and
    an empty one has length 0. *)
Definition slice {A} (a : array A) (r0 r1 c0 c1 : Z) : array A :=
  let rs := slice_index (nrows a) r0 in
  let re := slice_index (nrows a) r1 in
  let cs := slice_index (ncols a) c0 in
  let ce := slice_index (ncols a) c1 in
  mk (re - rs) (ce - cs) (fun i j => get a (rs + i) (cs + j)).

(** The length of an axis of a broadcast result: equal lengths, or one
    of them 1; anything else raises [ValueError]. *)
Definition broadcast_dim (m n : nat) : option nat :=
  if m =? n then Some m
  else if m =? 1 then Some n
  else if n =? 1 then Some m
  else None.

(** [a * b] (or another elementwise operator) under NumPy's broadcasting
    rule: an axis of length 1 is repeated. *)
Definition broadcast {A B C} (f : A -> B -> C) (a : array A) (b : array B)
  : option (array C) :=
  match broadcast_dim (nrows a) (nrows b),
        broadcast_dim (ncols a) (ncols b) with
  | Some h, Some w =>
      Some (mk h w (fun i j =>
        f (get a (if nrows a =? 1 then 0 else i)
                 (if ncols a =? 1 then 0 else j))
          (get b (if nrows b =? 1 then 0 else i)
                 (if ncols b =? 1 then 0 else j))))
  | _, _ => None
  end.

(** [a[r][c] = v] for an index inside the shape. *)
Definition aset {A} (a : array A) (r c : nat) (v : A) : array A :=
  mk (nrows a) (ncols a)
     (fun i j => if (i =? r) && (j =? c) then v else get a i j).

(** [range(n)] and [range(start, stop, step)] for a positive step. *)
Definition range (n : Z) : list nat := seq 0 (Z.to_nat n).

Definition range_step (start stop step : nat) : list nat :=
  map (fun k => start + k * step)
      (seq 0 ((stop - start + (step - 1)) / step)).

(** A [for] loop whose body may raise: the state is threaded through the
    iterations and the first failure ends the loop. *)
Definition for_each {X S} (l : list X) (body : X -> S -> option S) (s : S)
  : option S :=
  fold_left (fun acc x => match acc with
                          | Some st => body x st
                          | None => None
                          end) l (Some s).

End NdArray.

Import NdArray.

(** ** The float64 interface *)

(** The operations of NumPy's float64 that the correlator uses.  [fsum] is
    [np.sum] on the flattened samples (NumPy does not add them from left
    to right), [to_uint8] is [astype(np.uint8)], whose result is a uint8
    whatever the float is. *)
Class Float64Ops (F : Type) : Type := {
  of_Z : Z -> F;
  fadd : F -> F -> F;
  fsub : F -> F -> F;
  fmul : F -> F -> F;
  fdiv : F -> F -> F;
  fsum : list F -> F;
  fmax : F -> F -> F;
  fmin : F -> F -> F;
  to_uint8 : F -> Z;
  to_uint8_range : forall x, (0 <= to_uint8 x < 256)%Z
}.

(** ** The frame cross-correlator *)

Section Correlator.

Context {F : Type} `{Float64Ops F}.

(** [np.mean(a)]. *)
Definition np_mean (a : array F) : F :=
  fdiv (fsum (flatten a)) (of_Z (Z.of_nat (size a))).

(** [a.max()] and [a.min()]; [None] is the [ValueError] of an empty
    array. *)
Definition np_max (a : array F) : option F :=
  match flatten a with
  | [] => None
  | x :: l => Some (fold_left fmax l x)
  end.

Definition np_min (a : array F) : option F :=
  match flatten a with
  | [] => None
  | x :: l => Some (fold_left fmin l x)
  end.

(** Lines 21-22: [np.copy(frame) / 255]. *)
Definition scale_frame (frame : array Z) : array F :=
  amap (fun p => fdiv (of_Z p) (of_Z 255)) frame.

(** Line 24: the midpoint of the means of the two scaled frames. *)
Definition average_pixel_value (previous_frame current_frame : array Z) : F :=
  fdiv (fadd (np_mean (scale_frame previous_frame))
             (np_mean (scale_frame current_frame)))
       (of_Z 2).

(** Lines 21-27: the two frames, scaled and with [average_pixel_value]
    taken off every sample. *)
Definition normalize_frames (previous_frame current_frame : array Z)
  : array F * array F :=
  let normalized_previous_frame := scale_frame previous_frame in
  let normalized_current_frame := scale_frame current_frame in
  let average := average_pixel_value previous_frame current_frame in
  (ewise fsub normalized_previous_frame
         (full_like normalized_previous_frame average),
   ewise fsub normalized_current_frame
         (full_like normalized_current_frame average)).

(** Line 29: the template, the current frame without its 25 outer rows
    and columns. *)
Definition convolutional_kernel (height width : nat)
    (normalized_current_frame : array F) : array F :=
  slice normalized_current_frame
        25 (Z.of_nat height - 25) 25 (Z.of_nat width - 25).

(** Line 36: the score of one offset; [None] when the product of the
    kernel and the window raises. *)
Definition window_score (kernel normalized_previous_frame : array F)
    (r c : nat) : option F :=
  match broadcast fmul kernel
          (slice normalized_previous_frame
                 (Z.of_nat r) (Z.of_nat r + 110)
                 (Z.of_nat c) (Z.of_nat c + 110)) with
  | Some product => Some (fsum (flatten product))
  | None => None
  end.

(** Lines 33-36: the two loops that fill [output_image]. *)
Definition fill_output_image (kernel normalized_previous_frame : array F)
  : option (array F) :=
  for_each (range 50)
    (fun r output_image =>
       for_each (range 50)
         (fun c output_image =>
            match window_score kernel normalized_previous_frame r c with
            | Some v => Some (aset output_image r c v)
            | None => None
            end)
         output_image)
    (full 50 50 (of_Z 0)).

(** Lines 19-36: the correlation surface of two frames. *)
Definition correlation_surface (previous_frame current_frame : array Z)
  : option (array F) :=
  let height := nrows current_frame in
  let width := ncols current_frame in
  let '(normalized_previous_frame, normalized_current_frame) :=
    normalize_frames previous_frame current_frame in
  fill_output_image
    (convolutional_kernel height width normalized_current_frame)
    normalized_previous_frame.

(** Line 40: the affine rescale of the surface. *)
Definition rescale (output_image : array F) : option (array F) :=
  match np_max output_image, np_min output_image with
  | Some max_value, Some min_value =>
      Some (amap (fun v => fdiv (fmul v (of_Z 255))
                                (fsub max_value min_value))
                 (ewise fsub output_image
                        (full_like output_image min_value)))
  | _, _ => None
  end.

(** Lines 38-42: rescale and cast to uint8. *)
Definition quantize (output_image : array F) : option (array Z) :=
  match rescale output_image with
  | Some scaled => Some (amap to_uint8 scaled)
  | None => None
  end.

(** [correlate_adjacent_frames]; [None] stands for a raised exception. *)
Definition correlate_adjacent_frames (previous_frame current_frame : array Z)
  : option (array Z) :=
  match correlation_surface previous_frame current_frame with
  | Some output_image => quantize output_image
  | None => None
  end.

(** ** The correlation sequence builder *)

(** [make_correlation_video] on the frames that [imageio.mimread] has
    read; writing the result to [output_filename] does not change what
    is returned.  [None] stands for a raised exception. *)
Definition make_correlation_video (video : list (array Z))
  : option (list (array Z)) :=
  for_each (range (Z.of_nat (length video) - 1))
    (fun i output =>
       match nth_error video i, nth_error video (i + 1) with
       | Some current_frame, Some next_frame =>
           match correlate_adjacent_frames current_frame next_frame with
           | Some frame => Some (output ++ [frame])
           | None => None
           end
       | _, _ => None
       end)
    [].

End Correlator.

(** ** The path classifier *)

(** [np.sum] of a uint8 array: NumPy adds the samples as 64-bit unsigned
    integers, so the sum of a block does not wrap. *)
Definition np_sum_uint8 (a : array Z) : Z :=
  fold_left Z.add (flatten a) 0%Z.

(** Lines 94-102: the scan of one correlation frame.  The result is
    [(max_loc, max_val)] after the two loops. *)
Definition scan_step (frame : array Z) (r : nat) (st : (nat * nat) * Z) (c : nat)
  : (nat * nat) * Z :=
  let '(max_loc, max_val) := st in
  let val := np_sum_uint8 (slice frame (Z.of_nat r) (Z.of_nat r + 2)
                                       (Z.of_nat c) (Z.of_nat c + 2)) in
  if (val >? max_val)%Z then ((r, c), val) else (max_loc, max_val).

Definition scan_frame (f : array Z) : (nat * nat) * Z :=
  let frame := slice f 0 50 0 50 in
  fold_left (fun st r => fold_left (scan_step frame r) (range_step 0 51 4) st)
            (range_step 0 51 4)
            ((0, 0), 0%Z).

Definition find_max_loc (f : array Z) : nat * nat := fst (scan_frame f).

(** [sqrt(n) > t] for integers [0 <= n] and [0 <= t].  [math.sqrt] is the
    correctly rounded square root, which is monotone and exact on perfect
    squares, so the comparison is that of [n] with [t * t]; see
    [sqrt_exceeds_real] for the square root of the reals. *)
Definition sqrt_exceeds (n t : Z) : bool := (t * t <? n)%Z.

(** Line 107 without the square root: the square of [change]. *)
Definition change_squared (max_loc last_max_loc : nat * nat) : Z :=
  ((Z.of_nat (fst max_loc) - Z.of_nat (fst last_max_loc)) ^ 2
   + (Z.of_nat (snd max_loc) - Z.of_nat (snd last_max_loc)) ^ 2)%Z.

(** Lines 93-110: one iteration of the loop over the correlation frames,
    on the state [(last_max_loc, turns)]. *)
Definition turn_step (st : option (nat * nat) * Z) (f : array Z)
  : option (nat * nat) * Z :=
  let '(last_max_loc, turns) := st in
  let max_loc := find_max_loc f in
  match last_max_loc with
  | None => (Some max_loc, turns)
  | Some last =>
      (Some max_loc,
       if sqrt_exceeds (change_squared max_loc last) 20
       then (turns + 1)%Z else turns)
  end.

(** Lines 90-115 on the correlation frames. *)
Definition classify_frames (correlated_video : list (array Z)) : bool :=
  let '(_, turns) := fold_left turn_step correlated_video (None, 0%Z) in
  (turns =? 2)%Z.

(** [is_triangular_path] on the frames of the file; [None] stands for a
    raised exception. *)
Definition is_triangular_path {F} `{Float64Ops F} (video : list (array Z))
  : option bool :=
  match make_correlation_video video with
  | Some correlated_video => Some (classify_frames correlated_video)
  | None => None
  end.

(** ** Exact arithmetic *)

(** The interface on the rationals: every operation is exact.  The cast
    truncates towards zero; a value outside [0, 256) wraps. *)
Module Exact.

Definition of_int (z : Z) : Qc := Q2Qc (inject_Z z).

Definition trunc (q : Qc) : Z := Z.quot (Qnum q) (Zpos (Qden q)).

Definition sum (l : list Qc) : Qc := fold_left Qcplus l (of_int 0).

Definition max (a b : Qc) : Qc := if Qle_bool a b then b else a.

Definition min (a b : Qc) : Qc := if Qle_bool a b then a else b.

Definition cast_uint8 (q : Qc) : Z := (trunc q mod 256)%Z.

#[global] Instance ops : Float64Ops Qc := {|
  of_Z := of_int;
  fadd := Qcplus;
  fsub := Qcminus;
  fmul := Qcmult;
  fdiv := Qcdiv;
  fsum := sum;
  fmax := max;
  fmin := min;
  to_uint8 := cast_uint8;
  to_uint8_range := fun q => Z.mod_pos_bound (trunc q) 256 eq_refl
|}.

End Exact.

(** ** IEEE binary64 *)

(** The interface on the binary64 floats of the machine; [+], [-], [*] and
    [/] round to nearest, ties to even, as NumPy's do.  [sum] adds from left
    to right, where [np.sum] adds pairwise, in blocks: the two agree up to
    rounding only, and no statement below rests on the value of [sum] on
    floats. *)
Module Binary64.

Definition of_int (z : Z) : float :=
  if (z <? 0)%Z then PrimFloat.opp (PrimFloat.of_uint63 (Uint63.of_Z (- z)))
  else PrimFloat.of_uint63 (Uint63.of_Z z).

(** The integer part of a float, towards zero; 0 for an infinity or a
    NaN. *)
Definition trunc (x : float) : Z :=
  match Prim2SF x with
  | S754_finite s m e =>
      let v := if (0 <=? e)%Z then (Z.pos m * 2 ^ e)%Z
               else (Z.pos m / 2 ^ (- e))%Z in
      if s then (- v)%Z else v
  | _ => 0%Z
  end.

Definition sum (l : list float) : float :=
  fold_left PrimFloat.add l PrimFloat.zero.

Definition max (a b : float) : float :=
  if PrimFloat.is_nan a then a
  else if PrimFloat.is_nan b then b
  else if PrimFloat.ltb a b then b else a.

Definition min (a b : float) : float :=
  if PrimFloat.is_nan a then a
  else if PrimFloat.is_nan b then b
  else if PrimFloat.ltb b a then b else a.

Definition cast_uint8 (x : float) : Z := (trunc x mod 256)%Z.

#[global] Instance ops : Float64Ops float := {|
  of_Z := of_int;
  fadd := PrimFloat.add;
  fsub := PrimFloat.sub;
  fmul := PrimFloat.mul;
  fdiv := PrimFloat.div;
  fsum := sum;
  fmax := max;
  fmin := min;
  to_uint8 := cast_uint8;
  to_uint8_range := fun x => Z.mod_pos_bound (trunc x) 256 eq_refl
|}.

End Binary64.

(** ** Specifications *)

(** The candidate corners of the peak scan, in the order of the scan. *)
Definition candidates : list (nat * nat) :=
  flat_map (fun r => map (fun c => (r, c)) (range_step 0 51 4))
           (range_step 0 51 4).

(** The sum of the 2x2 block of samples whose top-left corner is [p]. *)
Definition block_sum (f : array Z) (p : nat * nat) : Z :=
  (get f (fst p) (snd p) + get f (fst p) (snd p + 1)
   + get f (fst p + 1) (snd p) + get f (fst p + 1) (snd p + 1))%Z.

(** The Euclidean distance of two peak locations, a real number: the
    square root of the sum of the squares of the differences of the two
    rows and of the two columns. *)
Definition euclidean_distance (a b : nat * nat) : R :=
  R_sqrt.sqrt (Rsqr (INR (fst a) - INR (fst b))
               + Rsqr (INR (snd a) - INR (snd b))).

(** The number of locations after the first that lie further than 20 from
    the location before them. *)
Fixpoint count_turns (locs : list (nat * nat)) : nat :=
  match locs with
  | previous :: (current :: _) as rest =>
      (if Rlt_dec 20 (euclidean_distance current previous) then 1 else 0)
      + count_turns rest
  | _ => 0
  end.

(** The running maximum of a scan: the value only grows, and the location
    is replaced by the first element that beats every element before it. *)
Definition keep_max {X : Type} (val : X -> Z) (st : X * Z) (p : X) : X * Z :=
  if (val p >? snd st)%Z then (p, val p) else st.

(** The value that the scan reads at a candidate corner. *)
Definition scanned_sum (f : array Z) (p : nat * nat) : Z :=
  np_sum_uint8 (slice (slice f 0 50 0 50)
                      (Z.of_nat (fst p)) (Z.of_nat (fst p) + 2)
                      (Z.of_nat (snd p)) (Z.of_nat (snd p) + 2)).

(** The products that the spec adds up for the offset [(r, c)]: the
    sample of the template at [(i, j)], which is the sample of the
    zero-centered current frame at [(25 + i, 25 + j)], times the sample of
    the zero-centered previous frame at [(r + i, c + j)], for every
    position of the 110x110 template. *)
Definition template_products {F} `{Float64Ops F} (P C : array F)
    (r c : nat) : list F :=
  flat_map (fun i => map (fun j => fmul (get C (25 + i) (25 + j))
                                        (get P (r + i) (c + j)))
                         (seq 0 110))
           (seq 0 110).

Definition spec_score {F} `{Float64Ops F} (P C : array F) (r c : nat) : F :=
  fsum (template_products P C r c).

(** A black 160x160 frame and a black 100x100 frame. *)
Definition frame_zero : array Z := full 160 160 0%Z.

Definition frame_100 : array Z := full 100 100 0%Z.

(** A 50x50 correlation frame with two samples that are not zero. *)
Definition frame_peak : array Z :=
  mk 50 50 (fun i j => if (i =? 8) && (j =? 13) then 9%Z
                       else if (i =? 48) && (j =? 49) then 9%Z
                       else 0%Z).

(** A 2x2 surface of exact arithmetic, with the scores 0, 1, 2 and 3. *)
Definition surface_2x2 : array Qc :=
  mk 2 2 (fun i j => Exact.of_int (Z.of_nat (i + 2 * j))).

(** A 50x50 surface of binary64 floats: one score of 2956.72..., and 0
    elsewhere. *)
Definition surface_254 : array float :=
  mk 50 50 (fun i j => if (i =? 3) && (j =? 7)
                       then 0x1.71973194f9693p+11%float else 0%float).

(** [a.max()] and [a.min()] of a uint8 array. *)
Definition np_max_uint8 (a : array Z) : Z := fold_left Z.max (flatten a) 0%Z.

Definition np_min_uint8 (a : array Z) : Z := fold_left Z.min (flatten a) 255%Z.

(** The samples of the template and of the window of the offset [(r, c)],
    in the order of the products, and the sum of the squares of a list of
    samples. *)
Definition template_samples (C : array Qc) : list Qc :=
  flat_map (fun i => map (fun j => get C (25 + i) (25 + j)) (seq 0 110))
           (seq 0 110).

Definition window_samples (P : array Qc) (r c : nat) : list Qc :=
  flat_map (fun i => map (fun j => get P (r + i) (c + j)) (seq 0 110))
           (seq 0 110).

Definition energy (l : list Qc) : Qc :=
  Exact.sum (map (fun x => (x * x)%Qc) l).

(** A black 160x160 frame with a spot of 100 inside the template and a
    spot of 255 above it. *)
Definition frame_two_spots : array Z :=
  mk 160 160 (fun i j => if (i =? 30) && (j =? 80) then 100%Z
                         else if (i =? 10) && (j =? 80) then 255%Z
                         else 0%Z).

(** The positions of the template, row by row. *)
Definition positions : list (nat * nat) :=
  flat_map (fun i => map (pair i) (seq 0 110)) (seq 0 110).

(** The mean of the list that holds the scaled samples of both frames. *)
Definition pooled_mean {F} `{Float64Ops F} (prev cur : array Z) : F :=
  fdiv (fsum (flatten (scale_frame prev) ++ flatten (scale_frame cur)))
       (of_Z (Z.of_nat (size prev + size cur))).

(** A white 161x161 frame. *)
Definition frame_white_161 : array Z := full 161 161 255%Z.

(** The shared offset as the spec words it, without the definitions of the
    correlator: the samples of a frame divided by 255, the mean of a list
    of samples, and the midpoint of the means of the scaled samples of the
    two frames. *)
Definition scaled_samples {F} `{Float64Ops F} (frame : array Z) : list F :=
  map (fun p => fdiv (of_Z p) (of_Z 255)) (flatten frame).

Definition mean_of {F} `{Float64Ops F} (samples : list F) : F :=
  fdiv (fsum samples) (of_Z (Z.of_nat (length samples))).

Definition midpoint_of_means {F} `{Float64Ops F} (prev cur : array Z) : F :=
  fdiv (fadd (mean_of (scaled_samples prev)) (mean_of (scaled_samples cur)))
       (of_Z 2).

(** The rescale of line 40 in exact arithmetic, as a function of the
    score. *)
Definition rescaled (M m v : Qc) : Qc :=
  ((v - m) * Exact.of_int 255 / (M - m))%Qc.

(** ** Lists and loops *)

Lemma fold_left_flat_map {A B S} (f : S -> B -> S) (g : A -> list B) l s :
  fold_left f (flat_map g l) s = fold_left (fun st x => fold_left f (g x) st) l s.
Proof.
  revert s; induction l as [|x l IH]; intros s; simpl; [reflexivity|].
  now rewrite fold_left_app, IH.
Qed.

Lemma fold_left_map {A B S} (f : S -> B -> S) (h : A -> B) l s :
  fold_left f (map h l) s = fold_left (fun st x => f st (h x)) l s.
Proof.
  revert s; induction l as [|x l IH]; intros s; simpl; [reflexivity|].
  apply IH.
Qed.

Lemma fold_left_ext_in {A S} (f g : S -> A -> S) l s :
  (forall st x, In x l -> f st x = g st x) ->
  fold_left f l s = fold_left g l s.
Proof.
  revert s; induction l as [|x l IH]; intros s E; simpl; [reflexivity|].
  rewrite E by (left; reflexivity).
  apply IH; intros; apply E; right; assumption.
Qed.

Lemma keep_max_fold {X : Type} (val : X -> Z) (l : list X) :
  forall loc0 v0 loc v,
  fold_left (keep_max val) l (loc0, v0) = (loc, v) ->
  (v0 <= v)%Z /\
  (forall p, In p l -> (val p <= v)%Z) /\
  ((loc = loc0 /\ v = v0) \/
   exists l1 l2, l = l1 ++ loc :: l2 /\ val loc = v /\ (v0 < v)%Z /\
                 forall p, In p l1 -> (val p < v)%Z).
Proof.
  induction l as [|a l IH]; intros loc0 v0 loc v E; simpl in E.
  - inversion E; subst. repeat split; [lia| intros p []|now left].
  - unfold keep_max at 2 in E; simpl in E.
    destruct (val a >? v0)%Z eqn:G.
    + apply IH in E. destruct E as (Hv & Hall & Hloc).
      split; [lia|]. split.
      * intros p [<-|Hp]; [lia|now apply Hall].
      * right. destruct Hloc as [[-> ->]|(l1 & l2 & -> & Hval & Hlt & Hbefore)].
        -- exists [], l. repeat split; [lia|intros p []].
        -- exists (a :: l1), l2. repeat split; try assumption; try lia.
           intros p [<-|Hp]; [lia|now apply Hbefore].
    + apply IH in E. destruct E as (Hv & Hall & Hloc).
      split; [lia|]. split.
      * intros p [<-|Hp]; [lia|now apply Hall].
      * destruct Hloc as [[-> ->]|(l1 & l2 & -> & Hval & Hlt & Hbefore)];
          [now left|right].
        exists (a :: l1), l2. repeat split; try assumption.
        intros p [<-|Hp]; [lia|now apply Hbefore].
Qed.

(** ** Slices *)

Lemma shape_eq {A} (a : array A) h w :
  shape a = (h, w) -> nrows a = h /\ ncols a = w.
Proof. intros E. injection E as Hn Hm. now split. Qed.

Lemma slice_index_nonneg n z :
  (0 <= z)%Z -> slice_index n z = Nat.min (Z.to_nat z) n.
Proof.
  intros Hz. unfold slice_index.
  destruct (z <? 0)%Z eqn:E; [apply Z.ltb_lt in E; lia|reflexivity].
Qed.

Lemma slice_in_range {A} (a : array A) (r0 r1 c0 c1 : nat) :
  r0 <= r1 <= nrows a -> c0 <= c1 <= ncols a ->
  let s := slice a (Z.of_nat r0) (Z.of_nat r1) (Z.of_nat c0) (Z.of_nat c1) in
  nrows s = r1 - r0 /\ ncols s = c1 - c0 /\
  forall i j, get s i j = get a (r0 + i) (c0 + j).
Proof.
  intros Hr Hc. unfold slice; simpl.
  rewrite !slice_index_nonneg by lia.
  rewrite !Nat2Z.id.
  rewrite !Nat.min_l by lia.
  repeat split.
Qed.

(** A 2x2 block inside the array, flattened. *)
Lemma flatten_block {A} (a : array A) (r c : nat) :
  r + 2 <= nrows a -> c + 2 <= ncols a ->
  flatten (slice a (Z.of_nat r) (Z.of_nat r + 2) (Z.of_nat c) (Z.of_nat c + 2))
  = [get a r c; get a r (c + 1); get a (r + 1) c; get a (r + 1) (c + 1)].
Proof.
  intros Hr Hc.
  replace (Z.of_nat r + 2)%Z with (Z.of_nat (r + 2)) by lia.
  replace (Z.of_nat c + 2)%Z with (Z.of_nat (c + 2)) by lia.
  destruct (@slice_in_range _ a r (r + 2) c (c + 2)) as (Hn & Hm & Hg); try lia.
  unfold flatten. rewrite Hn, Hm.
  replace (r + 2 - r) with 2 by lia. replace (c + 2 - c) with 2 by lia.
  cbn [seq flat_map map app]. rewrite !Hg, !Nat.add_0_r. reflexivity.
Qed.

(** ** The peak scan *)

Lemma in_range_step_4 r :
  In r (range_step 0 51 4) <-> r mod 4 = 0 /\ r <= 50.
Proof.
  unfold range_step.
  change ((51 - 0 + (4 - 1)) / 4) with 13.
  rewrite in_map_iff. split.
  - intros (k & <- & Hk). apply in_seq in Hk. split; [|lia].
    change (0 + k * 4) with (k * 4). apply Nat.Div0.mod_mul.
  - intros (Hm & Hr). exists (r / 4). split.
    + pose proof (Nat.div_mod_eq r 4). lia.
    + apply in_seq. pose proof (Nat.div_mod_eq r 4). lia.
Qed.

Lemma in_candidates r c :
  In (r, c) candidates <->
  (r mod 4 = 0 /\ r <= 50) /\ (c mod 4 = 0 /\ c <= 50).
Proof.
  unfold candidates. rewrite in_flat_map. split.
  - intros (r' & Hr & Hc). apply in_map_iff in Hc.
    destruct Hc as (c' & E & Hc). inversion E; subst.
    now rewrite <- !in_range_step_4.
  - intros (Hr & Hc). exists r. split; [now apply in_range_step_4|].
    apply in_map_iff. exists c. split; [reflexivity|now apply in_range_step_4].
Qed.

(** A candidate is a multiple of 4, so a candidate below 51 is at most 48. *)
Lemma candidate_bound r : r mod 4 = 0 -> r <= 50 -> r <= 48.
Proof. intros Hm Hr. pose proof (Nat.div_mod_eq r 4). lia. Qed.

(** The two loops of the scan are one pass over [candidates]. *)
Lemma scan_frame_fold f :
  scan_frame f = fold_left (keep_max (scanned_sum f)) candidates ((0, 0), 0%Z).
Proof.
  unfold scan_frame, candidates.
  rewrite fold_left_flat_map.
  apply fold_left_ext_in; intros st r _.
  rewrite fold_left_map.
  apply fold_left_ext_in; intros [loc v] c _.
  reflexivity.
Qed.

(** On a 50x50 frame the scan reads whole 2x2 blocks. *)
Lemma scanned_sum_block f p :
  shape f = (50, 50) -> In p candidates -> scanned_sum f p = block_sum f p.
Proof.
  intros Hs Hp. destruct p as [r c]. apply in_candidates in Hp.
  destruct Hp as ((Hr4 & Hr) & (Hc4 & Hc)).
  apply candidate_bound in Hr; [|assumption].
  apply candidate_bound in Hc; [|assumption].
  unfold shape in Hs. inversion Hs as [[Hn Hm]].
  destruct (@slice_in_range _ f 0 50 0 50) as (Hn' & Hm' & Hg); try lia.
  change (Z.of_nat 0) with 0%Z in *. change (Z.of_nat 50) with 50%Z in *.
  unfold scanned_sum, np_sum_uint8, block_sum; cbn [fst snd].
  rewrite flatten_block by lia.
  cbn [fold_left]. rewrite !Hg. cbn [Nat.add]. lia.
Qed.

(** The peak of a scan is the initial location or a candidate corner. *)
Lemma scan_frame_loc f loc v :
  scan_frame f = (loc, v) ->
  (loc = (0, 0) /\ v = 0%Z) \/
  exists before after,
    candidates = before ++ loc :: after /\ scanned_sum f loc = v /\
    (0 < v)%Z /\ forall p, In p before -> (scanned_sum f p < v)%Z.
Proof.
  rewrite scan_frame_fold. intros E.
  apply keep_max_fold in E. tauto.
Qed.

Lemma find_max_loc_grid f :
  (fst (find_max_loc f) mod 4 = 0 /\ fst (find_max_loc f) <= 48) /\
  (snd (find_max_loc f) mod 4 = 0 /\ snd (find_max_loc f) <= 48).
Proof.
  unfold find_max_loc. destruct (scan_frame f) as [loc v] eqn:E.
  apply scan_frame_loc in E.
  destruct E as [[-> _]|(before & after & Hc & _)].
  - simpl. repeat split; lia.
  - destruct loc as [r c]. simpl.
    assert (Hin : In (r, c) candidates)
      by (rewrite Hc; apply in_or_app; right; left; reflexivity).
    apply in_candidates in Hin. destruct Hin as ((Hr4 & Hr) & (Hc4 & Hc')).
    repeat split; auto using candidate_bound.
Qed.

(** ** The turn count *)

(** The integer test of [sqrt_exceeds] is the comparison of the real square
    root with the threshold. *)
Lemma sqrt_exceeds_real n t :
  (0 <= t)%Z ->
  sqrt_exceeds n t = true <-> (IZR t < R_sqrt.sqrt (IZR n))%R.
Proof.
  intros Ht. unfold sqrt_exceeds. rewrite Z.ltb_lt.
  assert (Ht' : (0 <= IZR t)%R) by (apply IZR_le; exact Ht).
  assert (Hsq : R_sqrt.sqrt (IZR (t * t)) = IZR t)
    by (rewrite mult_IZR; apply sqrt_square; exact Ht').
  split; intros Hlt.
  - rewrite <- Hsq. apply sqrt_lt_1_alt. split.
    + apply IZR_le. nia.
    + apply IZR_lt. exact Hlt.
  - destruct (Z.lt_ge_cases (t * t) n) as [|Hge]; [assumption|exfalso].
    apply IZR_le in Hge. apply sqrt_le_1_alt in Hge.
    rewrite Hsq in Hge. lra.
Qed.

Lemma change_squared_nonneg a b : (0 <= change_squared a b)%Z.
Proof.
  unfold change_squared. rewrite !Z.pow_2_r.
  apply Z.add_nonneg_nonneg; apply Z.square_nonneg.
Qed.

(** The integer under the square root of line 107 is the square of the
    Euclidean distance. *)
Lemma change_squared_real a b :
  IZR (change_squared a b)
  = (Rsqr (INR (fst a) - INR (fst b)) + Rsqr (INR (snd a) - INR (snd b)))%R.
Proof.
  unfold change_squared, Rsqr.
  rewrite plus_IZR, !Z.pow_2_r, !mult_IZR, !minus_IZR, <- !INR_IZR_INZ.
  reflexivity.
Qed.

(** The test of line 108 is the test of the Euclidean distance against
    20. *)
Lemma change_exceeds_20 a b :
  sqrt_exceeds (change_squared a b) 20 = true
  <-> (20 < euclidean_distance a b)%R.
Proof.
  unfold euclidean_distance. rewrite <- change_squared_real.
  apply sqrt_exceeds_real. lia.
Qed.

(** The loop over the frames, once a previous location is known. *)
Lemma fold_turn_step fs : forall last turns,
  snd (fold_left turn_step fs (Some last, turns))
  = (turns + Z.of_nat (count_turns (last :: map find_max_loc fs)))%Z.
Proof.
  induction fs as [|f fs IH]; intros last turns.
  - simpl. lia.
  - cbn [fold_left turn_step map]. rewrite IH.
    cbn [count_turns].
    destruct (sqrt_exceeds (change_squared (find_max_loc f) last) 20) eqn:E;
      destruct (Rlt_dec 20 (euclidean_distance (find_max_loc f) last))
        as [Hd|Hd].
    + lia.
    + exfalso. apply Hd. apply change_exceeds_20. exact E.
    + exfalso. apply change_exceeds_20 in Hd. congruence.
    + lia.
Qed.

(** C3: [classify_frames] counts one turn for each frame after the first
    whose peak location lies at a Euclidean distance strictly greater than
    20 from the peak location of the frame before it, whatever was counted
    before, and answers [true] exactly when that count is 2. *)
Theorem C3_turn_count (correlated_video : list (array Z)) :
  classify_frames correlated_video = true <->
  count_turns (map find_max_loc correlated_video) = 2.
Proof.
  unfold classify_frames.
  destruct correlated_video as [|f fs].
  - simpl. split; discriminate.
  - cbn [fold_left turn_step].
    pose proof (fold_turn_step fs (find_max_loc f) 0) as E.
    destruct (fold_left turn_step fs (Some (find_max_loc f), 0%Z))
      as [last turns].
    cbn [snd] in E. subst turns. cbn [map].
    rewrite Z.eqb_eq. lia.
Qed.

(** C4: on a 50x50 correlation frame the scan visits the corners whose
    coordinates are the multiples of 4 in [0, 50], row by row, reads the sum
    of the 2x2 block at each corner and returns the first corner whose sum
    is the greatest, provided that sum is positive; when no sum is positive
    it returns the initial location (0, 0) with the baseline 0. *)
Theorem C4_peak_scan (f : array Z) (loc : nat * nat) (v : Z) :
  shape f = (50, 50) ->
  scan_frame f = (loc, v) ->
  (forall r c, In (r, c) candidates <->
               (r mod 4 = 0 /\ r <= 50) /\ (c mod 4 = 0 /\ c <= 50)) /\
  (forall p, In p candidates -> (block_sum f p <= v)%Z) /\
  ((loc = (0, 0) /\ v = 0%Z) \/
   exists before after,
     candidates = before ++ loc :: after /\ block_sum f loc = v /\
     (0 < v)%Z /\ forall p, In p before -> (block_sum f p < v)%Z).
Proof.
  intros Hs E. split; [exact in_candidates|].
  pose proof E as E'. rewrite scan_frame_fold in E'.
  apply keep_max_fold in E'. destruct E' as (_ & Hall & _).
  split.
  - intros p Hp. rewrite <- (scanned_sum_block Hs Hp). now apply Hall.
  - apply scan_frame_loc in E.
    destruct E as [E|(before & after & Hc & Hv & Hpos & Hbefore)];
      [now left|right].
    exists before, after.
    assert (Hin : In loc candidates)
      by (rewrite Hc; apply in_or_app; right; left; reflexivity).
    repeat split; try assumption.
    + now rewrite <- (scanned_sum_block Hs Hin).
    + intros p Hp.
      assert (Hin' : In p candidates)
        by (rewrite Hc; apply in_or_app; left; exact Hp).
      rewrite <- (scanned_sum_block Hs Hin'). now apply Hbefore.
Qed.

(** C10: whatever the frame, both coordinates of the peak location are
    multiples of 4 between 0 and 48, so that the square of the distance of
    two peak locations is at most 2 * 48 * 48. *)
Theorem C10_peak_on_grid (f g : array Z) :
  ((fst (find_max_loc f) mod 4 = 0 /\ fst (find_max_loc f) <= 48) /\
   (snd (find_max_loc f) mod 4 = 0 /\ snd (find_max_loc f) <= 48)) /\
  (change_squared (find_max_loc f) (find_max_loc g) <= 4608)%Z.
Proof.
  split; [apply find_max_loc_grid|].
  destruct (find_max_loc_grid f) as ((_ & Hf1) & (_ & Hf2)).
  destruct (find_max_loc_grid g) as ((_ & Hg1) & (_ & Hg2)).
  unfold change_squared. rewrite !Z.pow_2_r. nia.
Qed.

(** ** Loops that may raise *)

Lemma for_each_snoc {X S} (l : list X) (x : X) (body : X -> S -> option S) s :
  for_each (l ++ [x]) body s
  = match for_each l body s with
    | Some st => body x st
    | None => None
    end.
Proof. unfold for_each. now rewrite fold_left_app. Qed.

(** The rule of a counting loop: an invariant that holds before the loop
    and that every iteration keeps, without raising, holds after it. *)
Lemma for_each_seq {S} (Inv : nat -> S -> Prop) (body : nat -> S -> option S)
    (n : nat) (s0 : S) :
  Inv 0 s0 ->
  (forall k s, k < n -> Inv k s ->
               exists s', body k s = Some s' /\ Inv (Datatypes.S k) s') ->
  exists s', for_each (seq 0 n) body s0 = Some s' /\ Inv n s'.
Proof.
  intros H0 Hstep. induction n as [|n IH].
  - exists s0. split; [reflexivity|exact H0].
  - destruct IH as (s & Hs & Hinv).
    { intros k st Hk. apply Hstep. lia. }
    rewrite seq_S, for_each_snoc, Hs. simpl.
    apply Hstep; [lia|exact Hinv].
Qed.

(** ** The correlation surface *)

Section Surface.

Context {F : Type} `{Float64Ops F}.

Lemma broadcast_same_shape (f : F -> F -> F) (a b : array F) h w :
  nrows a = h -> nrows b = h -> ncols a = w -> ncols b = w ->
  1 < h -> 1 < w ->
  broadcast f a b = Some (mk h w (fun i j => f (get a i j) (get b i j))).
Proof.
  intros Ha Hb Hc Hd Hh Hw. unfold broadcast, broadcast_dim.
  rewrite Ha, Hb, Hc, Hd, !Nat.eqb_refl.
  replace (h =? 1) with false by (symmetry; apply Nat.eqb_neq; lia).
  replace (w =? 1) with false by (symmetry; apply Nat.eqb_neq; lia).
  reflexivity.
Qed.

Lemma kernel_160 (C : array F) :
  shape C = (160, 160) ->
  let K := convolutional_kernel 160 160 C in
  nrows K = 110 /\ ncols K = 110 /\
  forall i j, get K i j = get C (25 + i) (25 + j).
Proof.
  intros Hs. destruct (shape_eq Hs) as [Hn Hm].
  unfold convolutional_kernel.
  change (Z.of_nat 160 - 25)%Z with (Z.of_nat 135).
  change 25%Z with (Z.of_nat 25).
  destruct (@slice_in_range _ C 25 135 25 135) as (Hn' & Hm' & Hg); try lia.
  cbv zeta. rewrite Hn', Hm'. repeat split. exact Hg.
Qed.

Lemma window_110 (P : array F) (r c : nat) :
  r + 110 <= nrows P -> c + 110 <= ncols P ->
  let W := slice P (Z.of_nat r) (Z.of_nat r + 110)
                   (Z.of_nat c) (Z.of_nat c + 110) in
  nrows W = 110 /\ ncols W = 110 /\
  forall i j, get W i j = get P (r + i) (c + j).
Proof.
  intros Hr Hc.
  replace (Z.of_nat r + 110)%Z with (Z.of_nat (r + 110)) by lia.
  replace (Z.of_nat c + 110)%Z with (Z.of_nat (c + 110)) by lia.
  destruct (@slice_in_range _ P r (r + 110) c (c + 110))
    as (Hn' & Hm' & Hg); try lia.
  cbv zeta. rewrite Hn', Hm'. repeat split; try lia. exact Hg.
Qed.

(** Line 36 on a 160x160 current frame: the window of every offset below
    50 lies inside the previous frame and has the shape of the kernel. *)
Lemma window_score_spec (P C : array F) (r c : nat) :
  shape C = (160, 160) -> 159 <= nrows P -> 159 <= ncols P ->
  r < 50 -> c < 50 ->
  window_score (convolutional_kernel 160 160 C) P r c
  = Some (spec_score P C r c).
Proof.
  intros Hs Hn Hm Hr Hc.
  destruct (kernel_160 Hs) as (Kn & Km & Kg).
  destruct (@window_110 P r c) as (Wn & Wm & Wg); try lia.
  unfold window_score.
  rewrite (@broadcast_same_shape fmul _ _ 110 110 Kn Wn Km Wm) by lia.
  f_equal. unfold spec_score, template_products, flatten.
  cbn [nrows ncols get]. f_equal.
  apply flat_map_ext; intros i. apply map_ext; intros j.
  now rewrite Kg, Wg.
Qed.

(** Lines 33-36: when no product raises, the loops store the score of
    every offset below 50 and leave the shape at 50x50. *)
Lemma fill_output_image_spec (K P : array F) (score : nat -> nat -> F) :
  (forall r c, r < 50 -> c < 50 -> window_score K P r c = Some (score r c)) ->
  exists s, fill_output_image K P = Some s /\
            nrows s = 50 /\ ncols s = 50 /\
            forall r c, r < 50 -> c < 50 -> get s r c = score r c.
Proof.
  intros Hscore. unfold fill_output_image.
  change (range 50) with (seq 0 50).
  destruct (@for_each_seq (array F)
    (fun k s => nrows s = 50 /\ ncols s = 50 /\
                forall r c, r < k -> c < 50 -> get s r c = score r c)
    (fun r output_image =>
       for_each (seq 0 50)
         (fun c output_image =>
            match window_score K P r c with
            | Some v => Some (aset output_image r c v)
            | None => None
            end) output_image)
    50 (full 50 50 (of_Z 0))) as (s & Hs & Hinv).
  - repeat split. intros r c Hr; lia.
  - intros k s Hk (Hn & Hm & Hg).
    destruct (@for_each_seq (array F)
      (fun j s' => nrows s' = 50 /\ ncols s' = 50 /\
                   (forall r c, r < k -> c < 50 -> get s' r c = score r c) /\
                   (forall c, c < j -> get s' k c = score k c))
      (fun c output_image =>
         match window_score K P k c with
         | Some v => Some (aset output_image k c v)
         | None => None
         end)
      50 s) as (s' & Hs' & Hn' & Hm' & Hrows & Hrow).
    + repeat split; try assumption. intros c Hc; lia.
    + intros j st Hj (Hn' & Hm' & Hrows & Hrow).
      rewrite (Hscore k j Hk Hj).
      eexists. split; [reflexivity|].
      repeat split; try assumption.
      * intros r c Hr Hc. cbn [aset get].
        replace (r =? k) with false by (symmetry; apply Nat.eqb_neq; lia).
        now apply Hrows.
      * intros c Hc. cbn [aset get]. rewrite Nat.eqb_refl.
        destruct (c =? j) eqn:E; cbn [andb].
        -- apply Nat.eqb_eq in E. now subst.
        -- apply Nat.eqb_neq in E. apply Hrow. lia.
    + exists s'. split; [exact Hs'|]. repeat split; try assumption.
      intros r c Hr Hc.
      destruct (Nat.eq_dec r k) as [->|Hne]; [now apply Hrow|].
      apply Hrows; lia.
  - exists s. split; [exact Hs|]. destruct Hinv as (Hn & Hm & Hg).
    repeat split; assumption.
Qed.

Lemma normalize_frames_shape (prev cur : array Z) :
  shape (fst (normalize_frames prev cur)) = shape prev /\
  shape (snd (normalize_frames prev cur)) = shape cur.
Proof. split; reflexivity. Qed.

(** Lines 19-36 on a 160x160 current frame and a previous frame of at
    least 159 rows and columns. *)
Lemma correlation_surface_spec (prev cur : array Z) :
  shape cur = (160, 160) -> 159 <= nrows prev -> 159 <= ncols prev ->
  exists s, correlation_surface prev cur = Some s /\
            nrows s = 50 /\ ncols s = 50 /\
            forall r c, r < 50 -> c < 50 ->
              get s r c = spec_score (fst (normalize_frames prev cur))
                                     (snd (normalize_frames prev cur)) r c.
Proof.
  intros Hs Hn Hm. unfold correlation_surface.
  destruct (shape_eq Hs) as [Hh Hw]. rewrite Hh, Hw.
  destruct (normalize_frames prev cur) as [P C] eqn:E.
  pose proof (normalize_frames_shape prev cur) as (HP & HC).
  rewrite E in HP, HC. cbn [fst snd] in *.
  apply shape_eq in HP. destruct HP as [HPn HPm].
  apply fill_output_image_spec. intros r c Hr Hc.
  apply window_score_spec; try assumption; try lia.
  now rewrite HC.
Qed.

End Surface.

(** ** Quantization and the correlator *)

Section Quantized.

Context {F : Type} `{Float64Ops F}.

Lemma flatten_nonempty {A} (a : array A) :
  0 < nrows a -> 0 < ncols a -> exists l, flatten a = get a 0 0 :: l.
Proof.
  destruct a as [h w g]. cbn [nrows ncols get]. intros Hh Hw.
  destruct h as [|h]; [lia|]. destruct w as [|w]; [lia|].
  unfold flatten. cbn [nrows ncols get seq flat_map map app].
  eexists. reflexivity.
Qed.

(** Lines 38-42 never raise on a surface that has a sample, and the result
    has the shape of the surface and uint8 samples. *)
Lemma quantize_spec (s : array F) :
  0 < nrows s -> 0 < ncols s ->
  exists max_value min_value q,
    np_max s = Some max_value /\ np_min s = Some min_value /\
    quantize s = Some q /\ nrows q = nrows s /\ ncols q = ncols s /\
    forall i j,
      get q i j
      = to_uint8 (fdiv (fmul (fsub (get s i j) min_value) (of_Z 255))
                       (fsub max_value min_value)).
Proof.
  intros Hh Hw. destruct (flatten_nonempty s Hh Hw) as (l & Hl).
  unfold quantize, rescale, np_max, np_min. rewrite Hl.
  do 3 eexists. repeat split.
Qed.

(** [correlate_adjacent_frames] on a 160x160 current frame and a previous
    frame of at least 159 rows and columns. *)
Lemma correlate_spec (prev cur : array Z) :
  shape cur = (160, 160) -> 159 <= nrows prev -> 159 <= ncols prev ->
  exists q, correlate_adjacent_frames prev cur = Some q /\
            nrows q = 50 /\ ncols q = 50 /\
            forall i j, (0 <= get q i j <= 255)%Z.
Proof.
  intros Hs Hn Hm.
  destruct (@correlation_surface_spec _ _ prev cur Hs Hn Hm)
    as (s & Hsurf & Hsn & Hsm & _).
  destruct (@quantize_spec s) as (M & m & q & _ & _ & Hq & Hqn & Hqm & Hg);
    try lia.
  exists q. unfold correlate_adjacent_frames. rewrite Hsurf.
  split; [exact Hq|]. split; [lia|]. split; [lia|].
  intros i j. rewrite Hg.
  pose proof (to_uint8_range
                (fdiv (fmul (fsub (get s i j) m) (of_Z 255)) (fsub M m))).
  lia.
Qed.

(** The sequence builder on frames that all correlate. *)
Lemma make_correlation_video_spec (video : list (array Z)) :
  Forall (fun f => shape f = (160, 160)) video ->
  exists output,
    make_correlation_video video = Some output /\
    length output = length video - 1 /\
    forall i, i + 1 < length video ->
      exists current_frame next_frame frame,
        nth_error video i = Some current_frame /\
        nth_error video (i + 1) = Some next_frame /\
        nth_error output i = Some frame /\
        correlate_adjacent_frames current_frame next_frame = Some frame.
Proof.
  intros Hall. unfold make_correlation_video, range.
  replace (Z.to_nat (Z.of_nat (length video) - 1)) with (length video - 1)
    by lia.
  destruct (@for_each_seq (list (array Z))
    (fun k output =>
       length output = k /\
       forall i, i < k ->
         exists current_frame next_frame frame,
           nth_error video i = Some current_frame /\
           nth_error video (i + 1) = Some next_frame /\
           nth_error output i = Some frame /\
           correlate_adjacent_frames current_frame next_frame = Some frame)
    (fun i output =>
       match nth_error video i, nth_error video (i + 1) with
       | Some current_frame, Some next_frame =>
           match correlate_adjacent_frames current_frame next_frame with
           | Some frame => Some (output ++ [frame])
           | None => None
           end
       | _, _ => None
       end)
    (length video - 1) []) as (output & Hout & Hlen & Hget).
  - split; [reflexivity|]. intros i Hi; lia.
  - intros k output Hk (Hlen & Hget).
    destruct (nth_error video k) as [p|] eqn:Ep;
      [|apply nth_error_None in Ep; lia].
    destruct (nth_error video (k + 1)) as [c|] eqn:Ec;
      [|apply nth_error_None in Ec; lia].
    rewrite Forall_forall in Hall.
    pose proof (Hall _ (nth_error_In _ _ Ep)) as Hp.
    pose proof (Hall _ (nth_error_In _ _ Ec)) as Hc.
    destruct (shape_eq Hp) as [Hpn Hpm].
    destruct (@correlate_spec p c Hc) as (q & Hq & _); try lia.
    rewrite Hq. eexists. split; [reflexivity|].
    split; [rewrite length_app; simpl; lia|].
    intros i Hi. destruct (Nat.eq_dec i k) as [->|Hne].
    + exists p, c, q. repeat split; try assumption.
      rewrite nth_error_app2 by lia.
      replace (k - length output) with 0 by lia. reflexivity.
    + destruct (Hget i) as (p' & c' & q' & H1 & H2 & H3 & H4); [lia|].
      exists p', c', q'. repeat split; try assumption.
      rewrite nth_error_app1 by lia. exact H3.
  - exists output. split; [exact Hout|]. split; [exact Hlen|].
    intros i Hi. apply Hget. lia.
Qed.

(** There is nothing to correlate in fewer than two frames. *)
Lemma make_correlation_video_short (video : list (array Z)) :
  length video < 2 -> make_correlation_video video = Some [].
Proof.
  intros Hlen. unfold make_correlation_video, range.
  replace (Z.to_nat (Z.of_nat (length video) - 1)) with 0 by lia.
  reflexivity.
Qed.

End Quantized.

(** ** The correlator and the builder *)

(** C1, as the code has it: for every offset (r, c) with r and c in
    0..49, the score that the correlator stores at (r, c) is the sum, over
    all positions of the 110x110 template (the zero-centered current frame
    without its 25 outer rows and columns), of the products of the template
    with the window of the zero-centered previous frame whose top-left
    corner is (r, c); the surface is 50x50. *)
Theorem C1_surface_scores {F} `{Float64Ops F} (prev cur : array Z) (r c : nat) :
  shape prev = (160, 160) -> shape cur = (160, 160) -> r < 50 -> c < 50 ->
  exists s, correlation_surface prev cur = Some s /\ shape s = (50, 50) /\
            lookup s r c
            = Some (spec_score (fst (normalize_frames prev cur))
                               (snd (normalize_frames prev cur)) r c).
Proof.
  intros Hp Hc Hr Hcol. destruct (shape_eq Hp) as [Hpn Hpm].
  destruct (@correlation_surface_spec _ _ prev cur Hc) as (s & Hs & Hn & Hm & Hg);
    try lia.
  exists s. split; [exact Hs|]. split; [unfold shape; congruence|].
  unfold lookup. rewrite Hn, Hm.
  replace (r <? 50) with true by (symmetry; apply Nat.ltb_lt; lia).
  replace (c <? 50) with true by (symmetry; apply Nat.ltb_lt; lia).
  cbn [andb]. f_equal. now apply Hg.
Qed.

Lemma C1_surface_scores_witness :
  exists s, correlation_surface (F := Qc) frame_zero frame_zero = Some s /\
            shape s = (50, 50) /\
            lookup s 0 0
            = Some (spec_score (fst (normalize_frames frame_zero frame_zero))
                               (snd (normalize_frames frame_zero frame_zero))
                               0 0).
Proof.
  apply (@C1_surface_scores Qc Exact.ops frame_zero frame_zero 0 0);
    [reflexivity|reflexivity|lia|lia].
Defined.

(** The offset 50 of the range 0..2M has no score: the surface of two black
    160x160 frames has no row 50. *)
Lemma C1_no_score_at_offset_50 :
  exists s, correlation_surface (F := Qc) frame_zero frame_zero = Some s /\
            lookup s 50 50 = None.
Proof.
  destruct (@correlation_surface_spec Qc Exact.ops frame_zero frame_zero)
    as (s & Hs & Hn & Hm & _); [reflexivity|simpl; lia|simpl; lia|].
  exists s. split; [exact Hs|]. unfold lookup. now rewrite Hn, Hm.
Qed.

(** Two frames of one shape that the correlator does not accept: on two
    black 100x100 frames the product of the 50x50 kernel and the 100x100
    window raises. *)
Lemma C6_raises_on_100x100 :
  shape frame_100 = shape frame_100 /\
  (forall i j, 0 <= get frame_100 i j <= 255)%Z /\
  correlate_adjacent_frames (F := Qc) frame_100 frame_100 = None.
Proof.
  split; [reflexivity|]. split; [intros i j; simpl; lia|].
  vm_compute. reflexivity.
Qed.

Lemma C4_peak_scan_witness :
  (forall p, In p candidates -> (block_sum frame_peak p <= 9)%Z) /\
  ((8, 12) = (0, 0) /\ 9%Z = 0%Z \/
   exists before after,
     candidates = before ++ (8, 12) :: after /\
     block_sum frame_peak (8, 12) = 9%Z /\ (0 < 9)%Z /\
     forall p, In p before -> (block_sum frame_peak p < 9)%Z).
Proof.
  apply (@C4_peak_scan frame_peak (8, 12) 9%Z); vm_compute; reflexivity.
Defined.

(** ** Exact arithmetic: sums, order and the cast *)

Module ExactFacts.

Local Open Scope Qc_scope.

Lemma this_plus (x y : Qc) : (this (x + y) == this x + this y)%Q.
Proof. apply Qred_correct. Qed.

Lemma this_mult (x y : Qc) : (this (x * y) == this x * this y)%Q.
Proof. apply Qred_correct. Qed.

Lemma fold_plus_acc (l : list Qc) : forall a,
  fold_left Qcplus l a = a + fold_left Qcplus l 0.
Proof.
  induction l as [|x l IH]; intros a; simpl.
  - ring.
  - rewrite IH, (IH (0 + x)). ring.
Qed.

Lemma sum_nil : Exact.sum [] = 0.
Proof. reflexivity. Qed.

Lemma sum_cons (x : Qc) (l : list Qc) : Exact.sum (x :: l) = x + Exact.sum l.
Proof.
  unfold Exact.sum. change (Exact.of_int 0) with 0. simpl.
  rewrite fold_plus_acc. ring.
Qed.

Lemma sum_app (l1 l2 : list Qc) :
  Exact.sum (l1 ++ l2) = Exact.sum l1 + Exact.sum l2.
Proof.
  induction l1 as [|x l1 IH]; simpl.
  - rewrite sum_nil. ring.
  - rewrite !sum_cons, IH. ring.
Qed.

(** Twice a sum of products is at most the two sums of squares. *)
Lemma sum_products_le {X} (a b : X -> Qc) (l : list X) :
  Exact.sum (map (fun x => a x * b x) l)
  + Exact.sum (map (fun x => a x * b x) l)
  <= Exact.sum (map (fun x => a x * a x) l)
     + Exact.sum (map (fun x => b x * b x) l).
Proof.
  induction l as [|x l IH]; simpl.
  - rewrite sum_nil. apply Qcle_refl.
  - rewrite !sum_cons.
    revert IH.
    generalize (Exact.sum (map (fun x => a x * b x) l)),
               (Exact.sum (map (fun x => a x * a x) l)),
               (Exact.sum (map (fun x => b x * b x) l)),
               (a x), (b x).
    intros sab saa sbb u v. unfold Qcle.
    rewrite !this_plus, !this_mult.
    generalize (this sab), (this saa), (this sbb), (this u), (this v).
    intros p q r y z Hle.
    assert (0 <= (y - z) * (y - z))%Q
      by (generalize (y - z)%Q; intros t; nra).
    lra.
Qed.

Lemma le_of_double (a b c : Qc) : a + a <= b + c -> c <= b -> a <= b.
Proof. unfold Qcle. rewrite !this_plus. intros; lra. Qed.

Lemma minus_eq_zero (x y : Qc) : x - y = 0 -> x = y.
Proof.
  intros E. rewrite <- (Qcplus_0_r y), <- E. ring.
Qed.

(** The rescale of exact arithmetic sends the minimum to 0 and the
    maximum to 255. *)
Lemma rescale_min (M m : Qc) :
  M <> m -> (m - m) * Exact.of_int 255 / (M - m) = 0.
Proof.
  intros Hne. field. intros E. apply Hne. now apply minus_eq_zero.
Qed.

Lemma rescale_max (M m : Qc) :
  M <> m -> (M - m) * Exact.of_int 255 / (M - m) = Exact.of_int 255.
Proof.
  intros Hne. field. intros E. apply Hne. now apply minus_eq_zero.
Qed.



End ExactFacts.

Lemma in_flatten {A} (a : array A) (v : A) :
  In v (flatten a) <->
  exists i j, i < nrows a /\ j < ncols a /\ v = get a i j.
Proof.
  unfold flatten. rewrite in_flat_map. split.
  - intros (i & Hi & Hv). apply in_map_iff in Hv.
    destruct Hv as (j & <- & Hj). apply in_seq in Hi, Hj.
    exists i, j. repeat split; lia.
  - intros (i & j & Hi & Hj & ->). exists i. split; [apply in_seq; lia|].
    apply in_map_iff. exists j. split; [reflexivity|apply in_seq; lia].
Qed.

(** ** The rescale *)



(** C7: in binary64 line 40 misses the greatest sample 255.  The scores
    of [surface_254] are all finite and differ, the greatest being
    2956.72... at (3, 7) and the least 0.  The least score is sent to the
    sample 0, but the greatest is rescaled to 2956.72... * 255 / 2956.72...,
    which rounds to a float below 255, and the cast of line 42 truncates it:
    the greatest sample of the quantized frame is 254. *)
Theorem C7_maximum_254_in_binary64 :
  np_max surface_254 = Some 0x1.71973194f9693p+11%float /\
  np_min surface_254 = Some 0%float /\
  PrimFloat.eqb 0x1.71973194f9693p+11 0 = false /\
  lookup surface_254 3 7 = Some 0x1.71973194f9693p+11%float /\
  PrimFloat.ltb (0x1.71973194f9693p+11 * 255 / 0x1.71973194f9693p+11) 255
  = true /\
  option_map (fun q => (shape q, lookup q 3 7, np_min_uint8 q, np_max_uint8 q))
             (quantize surface_254)
  = Some ((50, 50), Some 254%Z, 0%Z, 254%Z).
Proof. repeat split; vm_compute; reflexivity. Qed.

(** ** A frame correlated with itself (C8) *)

Lemma flat_map_pairs {A} (f : nat -> nat -> A) (li lj : list nat) :
  flat_map (fun i => map (fun j => f i j) lj) li
  = map (fun p => f (fst p) (snd p))
        (flat_map (fun i => map (pair i) lj) li).
Proof.
  induction li as [|i li IH]; simpl; [reflexivity|].
  rewrite map_app, map_map, IH. reflexivity.
Qed.

Lemma spec_score_positions (P C : array Qc) (r c : nat) :
  spec_score P C r c
  = Exact.sum (map (fun p => (get C (25 + fst p) (25 + snd p)
                              * get P (r + fst p) (c + snd p))%Qc) positions).
Proof.
  unfold spec_score, template_products.
  rewrite (flat_map_pairs (fun i j => fmul (get C (25 + i) (25 + j))
                                           (get P (r + i) (c + j)))).
  reflexivity.
Qed.

Lemma energy_template (C : array Qc) :
  energy (template_samples C)
  = Exact.sum (map (fun p => (get C (25 + fst p) (25 + snd p)
                              * get C (25 + fst p) (25 + snd p))%Qc) positions).
Proof.
  unfold energy, template_samples.
  rewrite (flat_map_pairs (fun i j => get C (25 + i) (25 + j))), map_map.
  reflexivity.
Qed.

Lemma energy_window (P : array Qc) (r c : nat) :
  energy (window_samples P r c)
  = Exact.sum (map (fun p => (get P (r + fst p) (c + snd p)
                              * get P (r + fst p) (c + snd p))%Qc) positions).
Proof.
  unfold energy, window_samples.
  rewrite (flat_map_pairs (fun i j => get P (r + i) (c + j))), map_map.
  reflexivity.
Qed.

(** C8, as the code has it: the surface of a 160x160 frame correlated
    with itself scores, at the offset (25, 25), the sum of the squares of
    the template, and no offset scores more whose window has a sum of
    squares that is at most that of the template. *)
Theorem C8_aligned_offset (frame : array Z) (r c : nat) :
  shape frame = (160, 160) -> r < 50 -> c < 50 ->
  exists s,
    correlation_surface (F := Qc) frame frame = Some s /\
    get s 25 25
    = energy (template_samples (fst (normalize_frames frame frame))) /\
    ((energy (window_samples (fst (normalize_frames frame frame)) r c)
      <= energy (template_samples (fst (normalize_frames frame frame))))%Qc ->
     (get s r c <= get s 25 25)%Qc).
Proof.
  intros Hs Hr Hc. destruct (shape_eq Hs) as [Hn Hm].
  destruct (@correlation_surface_spec Qc _ frame frame Hs)
    as (s & Hsurf & _ & _ & Hg); try lia.
  exists s. split; [exact Hsurf|].
  change (snd (normalize_frames (F := Qc) frame frame))
    with (fst (normalize_frames (F := Qc) frame frame)) in Hg.
  set (N := fst (normalize_frames (F := Qc) frame frame)) in *.
  assert (H25 : get s 25 25 = energy (template_samples N)).
  { rewrite (Hg 25 25) by lia.
    now rewrite spec_score_positions, energy_template. }
  split; [exact H25|].
  intros Hle. rewrite H25, (Hg r c Hr Hc).
  apply ExactFacts.le_of_double
    with (c := energy (window_samples N r c)); [|exact Hle].
  rewrite spec_score_positions, energy_template, energy_window.
  apply (ExactFacts.sum_products_le
           (fun p => get N (25 + fst p) (25 + snd p))
           (fun p => get N (r + fst p) (c + snd p))).
Qed.

Lemma C8_aligned_offset_witness :
  exists s,
    correlation_surface (F := Qc) frame_zero frame_zero = Some s /\
    get s 25 25
    = energy (template_samples (fst (normalize_frames frame_zero frame_zero))) /\
    ((energy (window_samples (fst (normalize_frames frame_zero frame_zero)) 3 7)
      <= energy (template_samples
                   (fst (normalize_frames frame_zero frame_zero))))%Qc ->
     (get s 3 7 <= get s 25 25)%Qc).
Proof.
  apply (@C8_aligned_offset frame_zero 3 7); [reflexivity|lia|lia].
Defined.

(** The offset (25, 25) need not score most: on [frame_two_spots] the
    offset (5, 25), which lays the spot of 100 of the template on the spot
    of 255 of the frame, scores more. *)
Lemma C8_greater_score_off_centre :
  exists s,
    correlation_surface (F := Qc) frame_two_spots frame_two_spots = Some s /\
    (get s 25 25 < get s 5 25)%Qc.
Proof.
  destruct (@correlation_surface_spec Qc _ frame_two_spots frame_two_spots)
    as (s & Hs & _ & _ & Hg); [reflexivity|simpl; lia|simpl; lia|].
  exists s. split; [exact Hs|].
  rewrite (Hg 25 25), (Hg 5 25) by lia.
  vm_compute. reflexivity.
Qed.

(** ** Scaled samples *)

Lemma of_int_unit_interval (p : Z) :
  (0 <= p <= 255)%Z ->
  (0 <= Exact.of_int p / Exact.of_int 255 /\
   Exact.of_int p / Exact.of_int 255 <= 1)%Qc.
Proof.
  intros Hp. unfold Qcdiv.
  assert (E : (this (Exact.of_int p * / Exact.of_int 255)%Qc
               == inject_Z p * (1 # 255))%Q).
  { rewrite ExactFacts.this_mult.
    change (this (/ Exact.of_int 255)%Qc) with (1 # 255)%Q.
    change (this (Exact.of_int p)) with (Qred (inject_Z p)).
    now rewrite Qred_correct. }
  unfold Qcle. rewrite E.
  change (this 0%Qc) with 0%Q. change (this 1%Qc) with 1%Q.
  unfold Qle, Qmult, inject_Z; simpl. lia.
Qed.

(** ** Frames that the correlator refuses *)

Lemma for_each_raised {X S} (l : list X) (body : X -> S -> option S) :
  fold_left (fun acc x => match acc with
                          | Some st => body x st
                          | None => None
                          end) l None = None.
Proof. induction l as [|x l IH]; simpl; [reflexivity|exact IH]. Qed.

Lemma for_each_app {X S} (l1 l2 : list X) (body : X -> S -> option S) s :
  for_each (l1 ++ l2) body s
  = match for_each l1 body s with
    | Some st => for_each l2 body st
    | None => None
    end.
Proof.
  unfold for_each. rewrite fold_left_app.
  destruct (fold_left _ l1 (Some s)); [reflexivity|apply for_each_raised].
Qed.

Lemma for_each_cons {X S} (x : X) (l : list X) (body : X -> S -> option S) s :
  for_each (x :: l) body s
  = match body x s with
    | Some st => for_each l body st
    | None => None
    end.
Proof.
  unfold for_each. simpl.
  destruct (body x s); [reflexivity|apply for_each_raised].
Qed.

Lemma broadcast_dim_none (m n : nat) :
  m <> n -> m <> 1 -> n <> 1 -> broadcast_dim m n = None.
Proof.
  intros H1 H2 H3. unfold broadcast_dim.
  apply Nat.eqb_neq in H1, H2, H3. now rewrite H1, H2, H3.
Qed.

Lemma kernel_rows {F} `{Float64Ops F} (C : array F) :
  nrows (convolutional_kernel (nrows C) (ncols C) C) = nrows C - 50 /\
  ncols (convolutional_kernel (nrows C) (ncols C) C) = ncols C - 50.
Proof.
  unfold convolutional_kernel, slice, slice_index; cbn [nrows ncols].
  change (25 <? 0)%Z with false. cbv iota.
  split.
  - destruct (Z.of_nat (nrows C) - 25 <? 0)%Z eqn:E;
      [apply Z.ltb_lt in E|apply Z.ltb_ge in E]; lia.
  - destruct (Z.of_nat (ncols C) - 25 <? 0)%Z eqn:E;
      [apply Z.ltb_lt in E|apply Z.ltb_ge in E]; lia.
Qed.

Lemma first_window_rows {F} (P : array F) :
  let W := slice P (Z.of_nat 0) (Z.of_nat 0 + 110)
                   (Z.of_nat 0) (Z.of_nat 0 + 110) in
  nrows W = Nat.min 110 (nrows P) /\ ncols W = Nat.min 110 (ncols P).
Proof.
  unfold slice; cbn [nrows ncols].
  rewrite !slice_index_nonneg by lia. split; lia.
Qed.

(** Line 36 raises at the first offset when the kernel and the window
    differ in an axis and neither has length 1 there. *)
Lemma fill_output_image_raises {F} `{Float64Ops F} (K P : array F) :
  window_score K P 0 0 = None -> fill_output_image K P = None.
Proof.
  intros E. unfold fill_output_image.
  change (range 50) with (0 :: seq 1 49).
  rewrite for_each_cons, for_each_cons, E. reflexivity.
Qed.

(** X1: two frames of one shape whose height or width is none of 0, 1, 51
    and 160 make the correlator raise: the kernel keeps the height less 50
    while the window takes up to 110 rows, and the two do not broadcast. *)
Theorem correlate_raises_on_other_shapes {F} `{Float64Ops F}
    (prev cur : array Z) :
  shape prev = shape cur ->
  ~ In (nrows cur) [0; 1; 51; 160] \/ ~ In (ncols cur) [0; 1; 51; 160] ->
  correlate_adjacent_frames prev cur = None.
Proof.
  intros Hs Hbad.
  assert (Hn : nrows prev = nrows cur) by (injection Hs; auto).
  assert (Hm : ncols prev = ncols cur) by (injection Hs; auto).
  unfold correlate_adjacent_frames, correlation_surface.
  destruct (normalize_frames prev cur) as [P C] eqn:E.
  pose proof (normalize_frames_shape prev cur) as (HP & HC).
  rewrite E in HP, HC. cbn [fst snd] in *.
  injection HP as HPn HPm. injection HC as HCn HCm.
  rewrite <- HCn, <- HCm.
  rewrite fill_output_image_raises; [reflexivity|].
  unfold window_score, broadcast.
  destruct (kernel_rows C) as [Kn Km].
  destruct (first_window_rows P) as [Wn Wm].
  cbv zeta in Wn, Wm. rewrite Kn, Km, Wn, Wm.
  destruct Hbad as [Hbad|Hbad].
  - rewrite broadcast_dim_none; [reflexivity| | |];
      intros Heq; apply Hbad; simpl; lia.
  - destruct (broadcast_dim (nrows C - 50) (Nat.min 110 (nrows P)));
      [|reflexivity].
    rewrite broadcast_dim_none; [reflexivity| | |];
      intros Heq; apply Hbad; simpl; lia.
Qed.

Lemma correlate_raises_on_other_shapes_witness :
  correlate_adjacent_frames (F := Qc) frame_100 frame_100 = None.
Proof.
  apply (@correlate_raises_on_other_shapes Qc _ frame_100 frame_100).
  - reflexivity.
  - left. simpl. intros [E|[E|[E|[E|[]]]]]; discriminate.
Defined.

(** X2: the builder stops at the first pair that the correlator refuses:
    one such pair makes the whole call raise, whatever the other frames
    are. *)
Theorem make_correlation_video_fails_fast {F} `{Float64Ops F}
    (video : list (array Z)) (i : nat) (current_frame next_frame : array Z) :
  nth_error video i = Some current_frame ->
  nth_error video (i + 1) = Some next_frame ->
  correlate_adjacent_frames current_frame next_frame = None ->
  make_correlation_video video = None.
Proof.
  intros Hc Hn Hraise.
  assert (Hi : i + 1 < length video)
    by (apply nth_error_Some; rewrite Hn; discriminate).
  unfold make_correlation_video, range.
  replace (Z.to_nat (Z.of_nat (length video) - 1))
    with (i + S (length video - 1 - S i)) by lia.
  rewrite seq_app, for_each_app. cbn [Nat.add seq].
  destruct (for_each (seq 0 i) _ []) as [output|]; [|reflexivity].
  rewrite for_each_cons, Hc, Hn, Hraise. reflexivity.
Qed.

Lemma make_correlation_video_fails_fast_witness :
  make_correlation_video (F := Qc) [frame_zero; frame_zero; frame_100] = None.
Proof.
  apply (@make_correlation_video_fails_fast Qc _
           [frame_zero; frame_zero; frame_100] 1 frame_zero frame_100);
    [reflexivity|reflexivity|vm_compute; reflexivity].
Defined.

(** ** Frames that the correlator accepts *)

(** The window of line 36 is cut short at the end of the frame. *)
Lemma window_shape {F} (P : array F) (r c : nat) :
  let W := slice P (Z.of_nat r) (Z.of_nat r + 110)
                   (Z.of_nat c) (Z.of_nat c + 110) in
  nrows W = Nat.min (r + 110) (nrows P) - Nat.min r (nrows P) /\
  ncols W = Nat.min (c + 110) (ncols P) - Nat.min c (ncols P).
Proof.
  unfold slice; cbn [nrows ncols].
  rewrite !slice_index_nonneg by lia. split; lia.
Qed.

(** On an axis of length 0, 1, 51 or 160 the kernel and every window
    broadcast: the kernel is empty (0, 1), or one sample long (51), or as
    long as the window (160). *)
Lemma broadcast_dim_accepted (n r : nat) :
  In n [0; 1; 51; 160] -> r < 50 ->
  broadcast_dim (n - 50) (Nat.min (r + 110) n - Nat.min r n) <> None.
Proof.
  intros Hn Hr. unfold broadcast_dim.
  destruct (n - 50 =? Nat.min (r + 110) n - Nat.min r n) eqn:E0;
    [discriminate|].
  destruct (n - 50 =? 1) eqn:E1; [discriminate|].
  destruct (Nat.min (r + 110) n - Nat.min r n =? 1) eqn:E2; [discriminate|].
  apply Nat.eqb_neq in E0, E1, E2.
  simpl in Hn. destruct Hn as [<-|[<-|[<-|[<-|[]]]]]; lia.
Qed.

Lemma window_score_returns {F} `{Float64Ops F} (C P : array F) (r c : nat) :
  nrows P = nrows C -> ncols P = ncols C ->
  In (nrows C) [0; 1; 51; 160] -> In (ncols C) [0; 1; 51; 160] ->
  r < 50 -> c < 50 ->
  window_score (convolutional_kernel (nrows C) (ncols C) C) P r c <> None.
Proof.
  intros Hn Hm HCn HCm Hr Hc. unfold window_score, broadcast.
  destruct (kernel_rows C) as [Kn Km].
  destruct (window_shape P r c) as [Wn Wm].
  cbv zeta in Wn, Wm. rewrite Kn, Km, Wn, Wm, Hn, Hm.
  pose proof (broadcast_dim_accepted HCn Hr) as Hrows.
  pose proof (broadcast_dim_accepted HCm Hc) as Hcols.
  destruct (broadcast_dim (nrows C - 50) _); [|contradiction].
  destruct (broadcast_dim (ncols C - 50) _); [|contradiction].
  discriminate.
Qed.

(** Two frames of one shape whose height and width are among 0, 1, 51 and
    160 have a quantized correlation frame. *)
Lemma correlate_returns {F} `{Float64Ops F} (prev cur : array Z) :
  shape prev = shape cur ->
  In (nrows cur) [0; 1; 51; 160] -> In (ncols cur) [0; 1; 51; 160] ->
  exists q, correlate_adjacent_frames prev cur = Some q /\
            nrows q = 50 /\ ncols q = 50 /\
            forall i j, (0 <= get q i j <= 255)%Z.
Proof.
  intros Hs HCn HCm.
  assert (Hn : nrows prev = nrows cur) by (injection Hs; auto).
  assert (Hm : ncols prev = ncols cur) by (injection Hs; auto).
  unfold correlate_adjacent_frames, correlation_surface.
  destruct (normalize_frames prev cur) as [P C] eqn:E.
  pose proof (normalize_frames_shape prev cur) as (HP & HC).
  rewrite E in HP, HC. cbn [fst snd] in *.
  injection HP as HPn HPm. injection HC as HCn' HCm'.
  rewrite <- HCn', <- HCm' in *.
  set (K := convolutional_kernel (nrows C) (ncols C) C).
  destruct (@fill_output_image_spec _ _ K P
              (fun r c => match window_score K P r c with
                          | Some v => v
                          | None => of_Z 0
                          end)) as (s & Hsurf & Hsn & Hsm & _).
  { intros r c Hr Hc.
    pose proof (@window_score_returns _ _ C P r c) as Hret.
    fold K in Hret.
    destruct (window_score K P r c); [reflexivity|].
    exfalso. apply Hret; congruence. }
  rewrite Hsurf.
  destruct (@quantize_spec _ _ s) as (M & m & q & _ & _ & Hq & Hqn & Hqm & Hg);
    try lia.
  exists q. split; [exact Hq|]. split; [lia|]. split; [lia|].
  intros i j. rewrite Hg.
  pose proof (to_uint8_range
                (fdiv (fmul (fsub (get s i j) m) (of_Z 255)) (fsub M m))).
  lia.
Qed.

(** Two frames of one shape with a height or a width that is none of 0, 1,
    51 and 160 make line 36 raise at the first offset. *)
Lemma correlate_raises {F} `{Float64Ops F} (prev cur : array Z) :
  shape prev = shape cur ->
  ~ In (nrows cur) [0; 1; 51; 160] \/ ~ In (ncols cur) [0; 1; 51; 160] ->
  correlate_adjacent_frames prev cur = None.
Proof.
  intros Hs Hbad.
  assert (Hn : nrows prev = nrows cur) by (injection Hs; auto).
  assert (Hm : ncols prev = ncols cur) by (injection Hs; auto).
  unfold correlate_adjacent_frames, correlation_surface.
  destruct (normalize_frames prev cur) as [P C] eqn:E.
  pose proof (normalize_frames_shape prev cur) as (HP & HC).
  rewrite E in HP, HC. cbn [fst snd] in *.
  injection HP as HPn HPm. injection HC as HCn HCm.
  rewrite <- HCn, <- HCm.
  rewrite fill_output_image_raises; [reflexivity|].
  unfold window_score, broadcast.
  destruct (kernel_rows C) as [Kn Km].
  destruct (first_window_rows P) as [Wn Wm].
  cbv zeta in Wn, Wm. rewrite Kn, Km, Wn, Wm.
  destruct Hbad as [Hbad|Hbad].
  - rewrite broadcast_dim_none; [reflexivity| | |];
      intros Heq; apply Hbad; simpl; lia.
  - destruct (broadcast_dim (nrows C - 50) (Nat.min 110 (nrows P)));
      [|reflexivity].
    rewrite broadcast_dim_none; [reflexivity| | |];
      intros Heq; apply Hbad; simpl; lia.
Qed.

(** C6, as the code has it: two frames of one shape have a quantized
    correlation frame when their height and their width are each one of 0,
    1, 51 and 160, as for 160x160 frames, and that frame is 50x50 with
    samples that are integers between 0 and 255; for every other height or
    width the correlator raises. *)
Theorem C6_quantized_frame {F} `{Float64Ops F} (prev cur : array Z) :
  shape prev = shape cur ->
  (In (nrows cur) [0; 1; 51; 160] /\ In (ncols cur) [0; 1; 51; 160] ->
   exists q, correlate_adjacent_frames prev cur = Some q /\
             shape q = (50, 50) /\
             forall i j, i < 50 -> j < 50 ->
               exists v, lookup q i j = Some v /\ (0 <= v <= 255)%Z) /\
  (~ In (nrows cur) [0; 1; 51; 160] \/ ~ In (ncols cur) [0; 1; 51; 160] ->
   correlate_adjacent_frames prev cur = None).
Proof.
  intros Hs. split.
  - intros [HCn HCm].
    destruct (correlate_returns Hs HCn HCm) as (q & Hq & Hn & Hm & Hg).
    exists q. split; [exact Hq|]. split; [unfold shape; congruence|].
    intros i j Hi Hj. exists (get q i j). split; [|apply Hg].
    unfold lookup. rewrite Hn, Hm.
    replace (i <? 50) with true by (symmetry; apply Nat.ltb_lt; lia).
    replace (j <? 50) with true by (symmetry; apply Nat.ltb_lt; lia).
    reflexivity.
  - apply correlate_raises. exact Hs.
Qed.

Lemma C6_quantized_frame_witness :
  (exists q,
     correlate_adjacent_frames (F := float) frame_zero frame_two_spots
     = Some q /\
     shape q = (50, 50) /\
     forall i j, i < 50 -> j < 50 ->
       exists v, lookup q i j = Some v /\ (0 <= v <= 255)%Z) /\
  correlate_adjacent_frames (F := float) frame_100 frame_100 = None.
Proof.
  split.
  - apply (proj1 (@C6_quantized_frame float _ frame_zero frame_two_spots
                    eq_refl)).
    simpl. tauto.
  - apply (proj2 (@C6_quantized_frame float _ frame_100 frame_100 eq_refl)).
    left. simpl. intros [E|[E|[E|[E|[]]]]]; discriminate.
Defined.

(** ** The builder on pairs that correlate *)

(** When the correlator returns on every pair of adjacent frames, the
    builder returns one frame for each pair, in the order of the pairs. *)
Lemma make_correlation_video_pairs {F} `{Float64Ops F}
    (video : list (array Z)) :
  (forall i current_frame next_frame,
     nth_error video i = Some current_frame ->
     nth_error video (i + 1) = Some next_frame ->
     correlate_adjacent_frames current_frame next_frame <> None) ->
  exists output,
    make_correlation_video video = Some output /\
    length output = length video - 1 /\
    forall i, i + 1 < length video ->
      exists current_frame next_frame frame,
        nth_error video i = Some current_frame /\
        nth_error video (i + 1) = Some next_frame /\
        nth_error output i = Some frame /\
        correlate_adjacent_frames current_frame next_frame = Some frame.
Proof.
  intros Hall. unfold make_correlation_video, range.
  replace (Z.to_nat (Z.of_nat (length video) - 1)) with (length video - 1)
    by lia.
  destruct (@for_each_seq (list (array Z))
    (fun k output =>
       length output = k /\
       forall i, i < k ->
         exists current_frame next_frame frame,
           nth_error video i = Some current_frame /\
           nth_error video (i + 1) = Some next_frame /\
           nth_error output i = Some frame /\
           correlate_adjacent_frames current_frame next_frame = Some frame)
    (fun i output =>
       match nth_error video i, nth_error video (i + 1) with
       | Some current_frame, Some next_frame =>
           match correlate_adjacent_frames current_frame next_frame with
           | Some frame => Some (output ++ [frame])
           | None => None
           end
       | _, _ => None
       end)
    (length video - 1) []) as (output & Hout & Hlen & Hget).
  - split; [reflexivity|]. intros i Hi; lia.
  - intros k output Hk (Hlen & Hget).
    destruct (nth_error video k) as [p|] eqn:Ep;
      [|apply nth_error_None in Ep; lia].
    destruct (nth_error video (k + 1)) as [c|] eqn:Ec;
      [|apply nth_error_None in Ec; lia].
    pose proof (Hall k p c Ep Ec) as Hret.
    destruct (correlate_adjacent_frames p c) as [q|] eqn:Hq;
      [|contradiction].
    eexists. split; [reflexivity|].
    split; [rewrite length_app; simpl; lia|].
    intros i Hi. destruct (Nat.eq_dec i k) as [->|Hne].
    + exists p, c, q. repeat split; try assumption.
      rewrite nth_error_app2 by lia.
      replace (k - length output) with 0 by lia. reflexivity.
    + destruct (Hget i) as (p' & c' & q' & H1 & H2 & H3 & H4); [lia|].
      exists p', c', q'. repeat split; try assumption.
      rewrite nth_error_app1 by lia. exact H3.
  - exists output. split; [exact Hout|]. split; [exact Hlen|].
    intros i Hi. apply Hget. lia.
Qed.

(** One pair on which the correlator raises makes the builder raise. *)
Lemma make_correlation_video_raises {F} `{Float64Ops F}
    (video : list (array Z)) (i : nat) (current_frame next_frame : array Z) :
  nth_error video i = Some current_frame ->
  nth_error video (i + 1) = Some next_frame ->
  correlate_adjacent_frames current_frame next_frame = None ->
  make_correlation_video video = None.
Proof.
  intros Hc Hn Hraise.
  assert (Hi : i + 1 < length video)
    by (apply nth_error_Some; rewrite Hn; discriminate).
  unfold make_correlation_video, range.
  replace (Z.to_nat (Z.of_nat (length video) - 1))
    with (i + S (length video - 1 - S i)) by lia.
  rewrite seq_app, for_each_app. cbn [Nat.add seq].
  destruct (for_each (seq 0 i) _ []) as [output|]; [|reflexivity].
  rewrite for_each_cons, Hc, Hn, Hraise. reflexivity.
Qed.

(** C5, as the code has it: the builder returns the empty sequence for
    fewer than two frames; for N frames it returns N - 1 frames, the i-th of
    which is the correlation of frame i with frame i + 1, provided the
    correlator returns on every pair of adjacent frames; and it raises as
    soon as the correlator raises on one such pair. *)
Theorem C5_sequence_builder {F} `{Float64Ops F} (video : list (array Z)) :
  (length video < 2 -> make_correlation_video video = Some []) /\
  ((forall i current_frame next_frame,
      nth_error video i = Some current_frame ->
      nth_error video (i + 1) = Some next_frame ->
      correlate_adjacent_frames current_frame next_frame <> None) ->
   exists output,
     make_correlation_video video = Some output /\
     length output = length video - 1 /\
     forall i, i + 1 < length video ->
       exists current_frame next_frame frame,
         nth_error video i = Some current_frame /\
         nth_error video (i + 1) = Some next_frame /\
         nth_error output i = Some frame /\
         correlate_adjacent_frames current_frame next_frame = Some frame) /\
  ((exists i current_frame next_frame,
      nth_error video i = Some current_frame /\
      nth_error video (i + 1) = Some next_frame /\
      correlate_adjacent_frames current_frame next_frame = None) ->
   make_correlation_video video = None).
Proof.
  split; [|split].
  - apply make_correlation_video_short.
  - apply make_correlation_video_pairs.
  - intros (i & current_frame & next_frame & Hc & Hn & Hraise).
    exact (make_correlation_video_raises video i Hc Hn Hraise).
Qed.

Lemma C5_sequence_builder_witness :
  make_correlation_video (F := float) [frame_two_spots] = Some [] /\
  (exists output,
     make_correlation_video (F := float)
       [frame_zero; frame_two_spots; frame_zero] = Some output /\
     length output = 2) /\
  make_correlation_video (F := float) [frame_zero; frame_100; frame_100]
  = None.
Proof.
  split; [|split].
  - apply (proj1 (@C5_sequence_builder float _ [frame_two_spots])).
    simpl; lia.
  - destruct (proj1 (proj2 (@C5_sequence_builder float _
                              [frame_zero; frame_two_spots; frame_zero])))
      as (output & Hout & Hlen & _).
    + intros i a b Ha Hb.
      assert (Hsa : shape a = (160, 160) /\ shape b = (160, 160)).
      { rewrite Nat.add_1_r in Hb.
        destruct i as [|[|i]]; simpl in Ha, Hb;
          [| |destruct i; discriminate];
          injection Ha as <-; injection Hb as <-; split; reflexivity. }
      destruct Hsa as [Hsa Hsb]. destruct (shape_eq Hsb) as [Hbn Hbm].
      destruct (@correlate_returns float _ a b) as (q & Hq & _).
      * now rewrite Hsa, Hsb.
      * rewrite Hbn. simpl. tauto.
      * rewrite Hbm. simpl. tauto.
      * rewrite Hq. discriminate.
    + exists output. split; [exact Hout|exact Hlen].
  - apply (proj2 (proj2 (@C5_sequence_builder float _
                           [frame_zero; frame_100; frame_100]))).
    exists 1, frame_100, frame_100.
    split; [reflexivity|]. split; [reflexivity|].
    apply correlate_raises; [reflexivity|].
    left. simpl. intros [E|[E|[E|[E|[]]]]]; discriminate.
Defined.

(** A video of two frames for which the builder returns no frame at all:
    on two black 100x100 frames it raises. *)
Lemma C5_raises_on_two_frames :
  length [frame_100; frame_100] = 2 /\
  make_correlation_video (F := float) [frame_100; frame_100] = None.
Proof.
  split; [reflexivity|].
  apply (@make_correlation_video_raises float _ [frame_100; frame_100]
           0 frame_100 frame_100); [reflexivity|reflexivity|].
  apply correlate_raises; [reflexivity|].
  left. simpl. intros [E|[E|[E|[E|[]]]]]; discriminate.
Qed.

(** ** The classifier on short and on stuttering videos *)

(** The answer of the classifier, as a test on the number of turns. *)
Lemma classify_frames_count (correlated_video : list (array Z)) :
  classify_frames correlated_video
  = (count_turns (map find_max_loc correlated_video) =? 2).
Proof.
  unfold classify_frames.
  destruct correlated_video as [|f fs]; [reflexivity|].
  cbn [fold_left turn_step].
  pose proof (fold_turn_step fs (find_max_loc f) 0) as E.
  destruct (fold_left turn_step fs (Some (find_max_loc f), 0%Z))
    as [last turns].
  cbn [snd] in E. subst turns. cbn [map].
  destruct (count_turns (find_max_loc f :: map find_max_loc fs) =? 2) eqn:E.
  - apply Nat.eqb_eq in E. apply Z.eqb_eq. lia.
  - apply Nat.eqb_neq in E. apply Z.eqb_neq. lia.
Qed.

Lemma count_turns_cons (a b : nat * nat) (l : list (nat * nat)) :
  count_turns (a :: b :: l)
  = (if Rlt_dec 20 (euclidean_distance b a) then 1 else 0)
    + count_turns (b :: l).
Proof. reflexivity. Qed.

(** There is at most one turn for each location after the first. *)
Lemma count_turns_le (locs : list (nat * nat)) :
  count_turns locs <= length locs - 1.
Proof.
  induction locs as [|a [|b l] IH]; [simpl; lia|simpl; lia|].
  rewrite count_turns_cons.
  destruct (Rlt_dec 20 (euclidean_distance b a)); simpl in *; lia.
Qed.

(** A location is at distance 0 from itself. *)
Lemma no_turn_in_place (a : nat * nat) :
  ~ (20 < euclidean_distance a a)%R.
Proof.
  unfold euclidean_distance, Rminus.
  rewrite !Rplus_opp_r, Rsqr_0, Rplus_0_r, sqrt_0. lra.
Qed.

Lemma count_turns_stutter (l1 l2 : list (nat * nat)) (x : nat * nat) :
  count_turns (l1 ++ x :: x :: l2) = count_turns (l1 ++ x :: l2).
Proof.
  induction l1 as [|a l1 IH].
  - cbn [app]. rewrite count_turns_cons.
    destruct (Rlt_dec 20 (euclidean_distance x x)) as [Hd|_];
      [exfalso; exact (no_turn_in_place x Hd)|reflexivity].
  - destruct l1 as [|b l1].
    + cbn [app] in *. rewrite !(count_turns_cons a x), IH. reflexivity.
    + cbn [app] in *. rewrite !(count_turns_cons a b), IH. reflexivity.
Qed.

(** X3: a video of at most three 160x160 frames is never classified as
    triangular: its two or fewer correlation frames show at most one turn,
    and the classifier wants exactly two. *)
Theorem is_triangular_path_needs_four_frames {F} `{Float64Ops F}
    (video : list (array Z)) :
  Forall (fun f => shape f = (160, 160)) video ->
  length video <= 3 ->
  is_triangular_path video = Some false.
Proof.
  intros Hall Hlen. unfold is_triangular_path.
  destruct (make_correlation_video_spec Hall) as (output & Hout & Hl & _).
  rewrite Hout. f_equal. rewrite classify_frames_count.
  apply Nat.eqb_neq.
  pose proof (count_turns_le (map find_max_loc output)) as Hle.
  rewrite length_map in Hle. lia.
Qed.

Lemma is_triangular_path_needs_four_frames_witness :
  is_triangular_path (F := Qc) [frame_zero; frame_zero; frame_zero]
  = Some false.
Proof.
  apply (@is_triangular_path_needs_four_frames Qc _
           [frame_zero; frame_zero; frame_zero]).
  - repeat constructor.
  - simpl. lia.
Defined.

(** X4: a correlation frame that comes twice in a row counts once: the
    second copy has the peak of the first, at distance 0, so the answer of
    the classifier does not change. *)
Theorem classify_frames_stutter (before after : list (array Z)) (f : array Z) :
  classify_frames (before ++ f :: f :: after)
  = classify_frames (before ++ f :: after).
Proof.
  rewrite !classify_frames_count, !map_app. cbn [map].
  now rewrite count_turns_stutter.
Qed.

(** ** The samples that the scan reads *)

Lemma scanned_sum_block_ge (f : array Z) (p : nat * nat) :
  50 <= nrows f -> 50 <= ncols f -> In p candidates ->
  scanned_sum f p = block_sum f p.
Proof.
  intros Hn Hm Hp. destruct p as [r c]. apply in_candidates in Hp.
  destruct Hp as ((Hr4 & Hr) & (Hc4 & Hc)).
  apply candidate_bound in Hr; [|assumption].
  apply candidate_bound in Hc; [|assumption].
  destruct (@slice_in_range _ f 0 50 0 50) as (Hn' & Hm' & Hg); try lia.
  change (Z.of_nat 0) with 0%Z in *. change (Z.of_nat 50) with 50%Z in *.
  unfold scanned_sum, np_sum_uint8, block_sum; cbn [fst snd].
  rewrite flatten_block by lia.
  cbn [fold_left]. rewrite !Hg. cbn [Nat.add]. lia.
Qed.

(** X5: the scan of a frame of at least 50 rows and columns reads nothing
    but the samples of its top-left 50x50 region whose row and column are
    0 or 1 modulo 4: two frames that agree there have the same peak and the
    same greatest sum. *)
Theorem scan_frame_reads_blocks_only (f g : array Z) :
  50 <= nrows f -> 50 <= ncols f -> 50 <= nrows g -> 50 <= ncols g ->
  (forall i j, i < 50 -> j < 50 -> i mod 4 <= 1 -> j mod 4 <= 1 ->
               get f i j = get g i j) ->
  scan_frame f = scan_frame g.
Proof.
  intros Hfn Hfm Hgn Hgm Hsame. rewrite !scan_frame_fold.
  apply fold_left_ext_in. intros st p Hp.
  unfold keep_max.
  rewrite (@scanned_sum_block_ge f p Hfn Hfm Hp).
  rewrite (@scanned_sum_block_ge g p Hgn Hgm Hp).
  assert (E : block_sum f p = block_sum g p).
  { destruct p as [r c]. apply in_candidates in Hp.
    destruct Hp as ((Hr4 & Hr) & (Hc4 & Hc)).
    pose proof (candidate_bound Hr4 Hr). pose proof (candidate_bound Hc4 Hc).
    assert (Hr1 : (r + 1) mod 4 <= 1)
      by (pose proof (Nat.div_mod_eq r 4);
          pose proof (Nat.div_mod_eq (r + 1) 4);
          pose proof (Nat.mod_upper_bound (r + 1) 4); lia).
    assert (Hc1 : (c + 1) mod 4 <= 1)
      by (pose proof (Nat.div_mod_eq c 4);
          pose proof (Nat.div_mod_eq (c + 1) 4);
          pose proof (Nat.mod_upper_bound (c + 1) 4); lia).
    unfold block_sum; cbn [fst snd].
    rewrite !Hsame by lia. reflexivity. }
  now rewrite E.
Qed.

Lemma scan_frame_reads_blocks_only_witness :
  scan_frame frame_peak
  = scan_frame (mk 50 50 (fun i j => if (i =? 2) && (j =? 2) then 200%Z
                                     else get frame_peak i j)).
Proof.
  apply (@scan_frame_reads_blocks_only frame_peak
           (mk 50 50 (fun i j => if (i =? 2) && (j =? 2) then 200%Z
                                 else get frame_peak i j)));
    try (simpl; lia).
  intros i j Hi Hj Hi4 Hj4. cbn [get].
  destruct ((i =? 2) && (j =? 2)) eqn:E; [|reflexivity].
  apply andb_true_iff in E. destruct E as [E _].
  apply Nat.eqb_eq in E. subst i. simpl in Hi4. lia.
Defined.

(** ** What the builder hands to the classifier *)

(** X6: every frame that the builder makes of a video of 160x160 frames is
    a 50x50 frame of samples between 0 and 255, so that the clip
    [f[0:50, 0:50]] of the classifier changes neither its shape nor a
    sample. *)
Theorem make_correlation_video_frames {F} `{Float64Ops F}
    (video output : list (array Z)) (f : array Z) :
  Forall (fun frame => shape frame = (160, 160)) video ->
  make_correlation_video video = Some output ->
  In f output ->
  shape f = (50, 50) /\
  (forall i j, i < 50 -> j < 50 -> (0 <= get f i j <= 255)%Z) /\
  shape (slice f 0 50 0 50) = shape f /\
  (forall i j, get (slice f 0 50 0 50) i j = get f i j).
Proof.
  intros Hall Hout Hin.
  destruct (make_correlation_video_spec Hall) as (output' & Hout' & Hlen & Hget).
  rewrite Hout in Hout'. injection Hout' as <-.
  apply In_nth_error in Hin. destruct Hin as (i & Hi).
  assert (Hlt : i < length output)
    by (apply nth_error_Some; rewrite Hi; discriminate).
  destruct (Hget i) as (p & c & q & Hp & Hc & Hq & Hcorr); [lia|].
  rewrite Hi in Hq. injection Hq as <-.
  rewrite Forall_forall in Hall.
  pose proof (Hall _ (nth_error_In _ _ Hp)) as Hps.
  pose proof (Hall _ (nth_error_In _ _ Hc)) as Hcs.
  destruct (shape_eq Hps) as [Hpn Hpm].
  destruct (@correlate_spec _ _ p c Hcs) as (q & Hq & Hn & Hm & Hg); try lia.
  rewrite Hcorr in Hq. injection Hq as <-.
  destruct (@slice_in_range _ f 0 50 0 50) as (Hn' & Hm' & Hg'); try lia.
  change (Z.of_nat 0) with 0%Z in *. change (Z.of_nat 50) with 50%Z in *.
  split; [|split; [|split]].
  - unfold shape. congruence.
  - intros a b _ _. apply Hg.
  - unfold shape. rewrite Hn', Hm', Hn, Hm. reflexivity.
  - exact Hg'.
Qed.

Lemma make_correlation_video_frames_witness :
  exists output f,
    make_correlation_video (F := Qc) [frame_zero; frame_zero] = Some output /\
    nth_error output 0 = Some f /\ shape f = (50, 50).
Proof.
  destruct (@make_correlation_video_spec Qc _ [frame_zero; frame_zero])
    as (output & Hout & Hlen & Hget); [repeat constructor|].
  destruct (Hget 0) as (_ & _ & f & _ & _ & Hf & _); [simpl; lia|].
  exists output, f. split; [exact Hout|]. split; [exact Hf|].
  apply (@make_correlation_video_frames Qc _ [frame_zero; frame_zero]
           output f); [repeat constructor|exact Hout|].
  exact (nth_error_In _ _ Hf).
Defined.

(** ** The shared offset in exact arithmetic *)

Lemma flatten_length {A} (a : array A) : length (flatten a) = size a.
Proof.
  unfold flatten, size.
  transitivity (length (seq 0 (nrows a)) * ncols a);
    [|now rewrite length_seq].
  induction (seq 0 (nrows a)) as [|i l IH]; simpl; [reflexivity|].
  now rewrite length_app, length_map, length_seq, IH.
Qed.

Lemma flatten_amap {A B} (f : A -> B) (a : array A) :
  flatten (amap f a) = map f (flatten a).
Proof.
  unfold flatten, amap; cbn [nrows ncols get].
  induction (seq 0 (nrows a)) as [|i l IH]; simpl; [reflexivity|].
  now rewrite map_app, map_map, IH.
Qed.

Lemma flatten_ewise_full_like {A B C} (f : A -> B -> C) (a : array A) (v : B) :
  flatten (ewise f a (full_like a v)) = map (fun x => f x v) (flatten a).
Proof.
  unfold flatten, ewise, full_like, full; cbn [nrows ncols get].
  induction (seq 0 (nrows a)) as [|i l IH]; simpl; [reflexivity|].
  now rewrite map_app, map_map, IH.
Qed.

Module OffsetFacts.

Local Open Scope Qc_scope.

Lemma of_int_plus (a b : Z) :
  Exact.of_int (a + b) = Exact.of_int a + Exact.of_int b.
Proof.
  apply Qc_is_canon. rewrite ExactFacts.this_plus.
  unfold Exact.of_int, Q2Qc, this. rewrite !Qred_correct.
  rewrite inject_Z_plus. apply Qeq_refl.
Qed.

Lemma of_int_nonzero (z : Z) : z <> 0%Z -> Exact.of_int z <> 0.
Proof.
  intros Hz E. apply Hz.
  unfold Exact.of_int in E. apply Q2Qc_eq_iff in E.
  unfold Qeq, inject_Z in E. simpl in E. lia.
Qed.

Lemma of_int_two : Exact.of_int 2 = 1 + 1.
Proof. apply Qc_is_canon. reflexivity. Qed.

Lemma sum_map_minus (c : Qc) (l : list Qc) :
  Exact.sum (map (fun x => x - c) l)
  = Exact.sum l - Exact.of_int (Z.of_nat (length l)) * c.
Proof.
  induction l as [|x l IH].
  - simpl. rewrite ExactFacts.sum_nil. change (Exact.of_int 0) with 0. ring.
  - cbn [map length]. rewrite !ExactFacts.sum_cons, IH.
    rewrite Nat2Z.inj_succ, <- Z.add_1_l, of_int_plus.
    change (Exact.of_int 1) with 1. ring.
Qed.

Lemma two_nonzero : 1 + 1 <> 0.
Proof. intros E. apply (f_equal this) in E. vm_compute in E. discriminate. Qed.

Lemma midpoint_is_pooled (n a b : Qc) :
  n <> 0 -> (a / n + b / n) / (1 + 1) = (a + b) / (n + n).
Proof.
  intros Hn. replace (n + n) with ((1 + 1) * n) by ring.
  field. repeat split; solve [exact Hn|exact two_nonzero].
Qed.

Lemma centered_together (n a b : Qc) :
  n <> 0 ->
  a - n * ((a / n + b / n) / (1 + 1)) + (b - n * ((a / n + b / n) / (1 + 1)))
  = 0.
Proof.
  intros Hn. field. repeat split; solve [exact Hn|exact two_nonzero].
Qed.

End OffsetFacts.

(** X7: on two frames with the same number of samples, at least one, the
    midpoint of the two means is the mean of the pooled samples, the scalar
    that the docstring asks for (exact arithmetic). *)
Theorem shared_offset_is_pooled_mean (prev cur : array Z) :
  size prev = size cur -> 0 < size prev ->
  average_pixel_value (F := Qc) prev cur = pooled_mean prev cur.
Proof.
  intros Hsize Hpos.
  unfold average_pixel_value, pooled_mean, np_mean.
  cbn [fdiv fadd fsum of_Z Exact.ops].
  change (size (scale_frame (F := Qc) prev)) with (size prev).
  change (size (scale_frame (F := Qc) cur)) with (size cur).
  rewrite ExactFacts.sum_app, Hsize, Nat2Z.inj_add, OffsetFacts.of_int_plus.
  rewrite OffsetFacts.of_int_two.
  assert (Hn : Exact.of_int (Z.of_nat (size cur)) <> 0%Qc)
    by (apply OffsetFacts.of_int_nonzero; lia).
  now apply OffsetFacts.midpoint_is_pooled.
Qed.

Lemma shared_offset_is_pooled_mean_witness :
  average_pixel_value (F := Qc) frame_zero frame_two_spots
  = pooled_mean frame_zero frame_two_spots.
Proof.
  apply (@shared_offset_is_pooled_mean frame_zero frame_two_spots);
    [reflexivity|unfold size, frame_zero, full; cbn [nrows ncols]; lia].
Defined.

(** X8: the two normalized frames are centered together: on two frames
    with the same number of samples, at least one, the samples of the two
    normalized frames add up to 0 (exact arithmetic). *)
Theorem normalized_frames_sum_to_zero (prev cur : array Z) :
  size prev = size cur -> 0 < size prev ->
  (Exact.sum (flatten (fst (normalize_frames (F := Qc) prev cur)))
   + Exact.sum (flatten (snd (normalize_frames (F := Qc) prev cur))) = 0)%Qc.
Proof.
  intros Hsize Hpos. unfold normalize_frames. cbn [fst snd].
  rewrite !flatten_ewise_full_like.
  cbn [fsub Exact.ops]. rewrite !OffsetFacts.sum_map_minus.
  rewrite !flatten_length.
  unfold average_pixel_value, np_mean.
  cbn [fdiv fadd fsum of_Z Exact.ops].
  change (size (scale_frame (F := Qc) prev)) with (size prev).
  change (size (scale_frame (F := Qc) cur)) with (size cur).
  rewrite Hsize, OffsetFacts.of_int_two.
  assert (Hn : Exact.of_int (Z.of_nat (size cur)) <> 0%Qc)
    by (apply OffsetFacts.of_int_nonzero; lia).
  now apply OffsetFacts.centered_together.
Qed.

Lemma normalized_frames_sum_to_zero_witness :
  (Exact.sum (flatten (fst (normalize_frames (F := Qc)
                              frame_zero frame_two_spots)))
   + Exact.sum (flatten (snd (normalize_frames (F := Qc)
                                frame_zero frame_two_spots))) = 0)%Qc.
Proof.
  apply (@normalized_frames_sum_to_zero frame_zero frame_two_spots);
    [reflexivity|unfold size, frame_zero, full; cbn [nrows ncols]; lia].
Defined.

(** ** The order of the quantized samples *)

Module QuantizeFacts.

Local Open Scope Qc_scope.

Lemma this_opp (x : Qc) : (this (- x) == - this x)%Q.
Proof. apply Qred_correct. Qed.

Lemma this_inv (x : Qc) : (this (/ x) == / this x)%Q.
Proof. apply Qred_correct. Qed.

Lemma max_ge (a b : Qc) : a <= Exact.max a b /\ b <= Exact.max a b.
Proof.
  unfold Exact.max, Qcle. destruct (Qle_bool a b) eqn:E.
  - apply Qle_bool_iff in E. split; [exact E|apply Qle_refl].
  - split; [apply Qle_refl|].
    apply Qlt_le_weak, Qnot_le_lt. intros Hle.
    apply Qle_bool_iff in Hle. congruence.
Qed.

Lemma min_le (a b : Qc) : Exact.min a b <= a /\ Exact.min a b <= b.
Proof.
  unfold Exact.min, Qcle. destruct (Qle_bool a b) eqn:E.
  - apply Qle_bool_iff in E. split; [apply Qle_refl|exact E].
  - split; [|apply Qle_refl].
    apply Qlt_le_weak, Qnot_le_lt. intros Hle.
    apply Qle_bool_iff in Hle. congruence.
Qed.

Lemma fold_max_ge (l : list Qc) : forall x y,
  In y (x :: l) -> y <= fold_left Exact.max l x.
Proof.
  induction l as [|z l IH]; intros x y Hin.
  - destruct Hin as [E|[]]. rewrite <- E. apply Qcle_refl.
  - cbn [fold_left]. destruct (max_ge x z) as [Hx Hz].
    destruct Hin as [E|[E|Hin]].
    + rewrite <- E. apply Qcle_trans with (Exact.max x z); [exact Hx|].
      apply IH. now left.
    + rewrite <- E. apply Qcle_trans with (Exact.max x z); [exact Hz|].
      apply IH. now left.
    + apply IH. now right.
Qed.

Lemma fold_min_le (l : list Qc) : forall x y,
  In y (x :: l) -> fold_left Exact.min l x <= y.
Proof.
  induction l as [|z l IH]; intros x y Hin.
  - destruct Hin as [E|[]]. rewrite <- E. apply Qcle_refl.
  - cbn [fold_left]. destruct (min_le x z) as [Hx Hz].
    destruct Hin as [E|[E|Hin]].
    + rewrite <- E. apply Qcle_trans with (Exact.min x z); [|exact Hx].
      apply IH. now left.
    + rewrite <- E. apply Qcle_trans with (Exact.min x z); [|exact Hz].
      apply IH. now left.
    + apply IH. now right.
Qed.

Lemma rescaled_le (M m u v : Qc) :
  m < M -> u <= v -> rescaled M m u <= rescaled M m v.
Proof.
  unfold rescaled, Qcdiv, Qcminus, Qclt, Qcle. intros Hd Huv.
  rewrite !ExactFacts.this_mult, !ExactFacts.this_plus, !this_opp, this_inv,
    ExactFacts.this_plus, this_opp.
  change (this (Exact.of_int 255)) with 255%Q.
  assert (Hinv : (0 <= / (this M + - this m))%Q)
    by (apply Qinv_le_0_compat; lra).
  apply Qmult_le_compat_r; [|exact Hinv].
  lra.
Qed.

Lemma rescaled_min (M m : Qc) : M <> m -> rescaled M m m = 0.
Proof. apply ExactFacts.rescale_min. Qed.

Lemma rescaled_max (M m : Qc) : M <> m -> rescaled M m M = Exact.of_int 255.
Proof. apply ExactFacts.rescale_max. Qed.

(** The cast of a value between 0 and 255 is its integer part. *)
Lemma trunc_floor (a : Qc) : 0 <= a -> Exact.trunc a = Qfloor a.
Proof.
  unfold Qcle, Exact.trunc. destruct (this a) as [n d]. intros Ha.
  unfold Qle in Ha; simpl in Ha. simpl.
  apply Z.quot_div_nonneg; lia.
Qed.

Lemma cast_floor (a : Qc) :
  0 <= a -> a <= Exact.of_int 255 ->
  Exact.cast_uint8 a = Qfloor a /\ (0 <= Qfloor a <= 255)%Z.
Proof.
  intros H0 H255. unfold Exact.cast_uint8. rewrite trunc_floor by exact H0.
  assert (Hlo : (0 <= Qfloor a)%Z)
    by (change 0%Z with (Qfloor 0); apply Qfloor_resp_le; exact H0).
  assert (Hhi : (Qfloor a <= 255)%Z)
    by (change 255%Z with (Qfloor (Exact.of_int 255));
        apply Qfloor_resp_le; exact H255).
  split; [apply Z.mod_small; lia|lia].
Qed.

End QuantizeFacts.

(** X9: in exact arithmetic the quantization of a surface whose greatest
    and least score differ keeps the order of the scores: of two positions
    of the surface, the one with the lesser score gets the lesser or the
    same sample. *)
Theorem quantize_keeps_order (s : array Qc) (max_value min_value : Qc)
    (q : array Z) (i j k l : nat) :
  np_max s = Some max_value -> np_min s = Some min_value ->
  max_value <> min_value -> quantize s = Some q ->
  i < nrows s -> j < ncols s -> k < nrows s -> l < ncols s ->
  (get s i j <= get s k l)%Qc ->
  (get q i j <= get q k l)%Z.
Proof.
  intros HM Hm Hne Hq Hi Hj Hk Hl Hle.
  assert (Hbounds : forall a b, a < nrows s -> b < ncols s ->
            (min_value <= get s a b /\ get s a b <= max_value)%Qc).
  { intros a b Ha Hb.
    assert (Hin : In (get s a b) (flatten s))
      by (apply in_flatten; exists a, b; auto).
    unfold np_max, np_min in HM, Hm.
    destruct (flatten s) as [|x rest]; [destruct Hin|].
    injection HM as <-. injection Hm as <-.
    split; [now apply QuantizeFacts.fold_min_le
           |now apply QuantizeFacts.fold_max_ge]. }
  assert (Hlt : (min_value < max_value)%Qc).
  { destruct (Hbounds i j Hi Hj) as [H1 H2].
    pose proof (Qcle_trans _ _ _ H1 H2) as H3.
    destruct (Qcle_lt_or_eq _ _ H3) as [|E]; [assumption|].
    exfalso. apply Hne. now symmetry. }
  destruct (@quantize_spec Qc _ s) as (M & m & q' & HM' & Hm' & Hq' & _ & _ & Hg);
    try lia.
  rewrite HM in HM'. injection HM' as <-.
  rewrite Hm in Hm'. injection Hm' as <-.
  rewrite Hq in Hq'. injection Hq' as <-.
  rewrite !Hg. cbn [to_uint8 fdiv fmul fsub of_Z Exact.ops].
  change ((get s i j - min_value) * Exact.of_int 255
          / (max_value - min_value))%Qc
    with (rescaled max_value min_value (get s i j)).
  change ((get s k l - min_value) * Exact.of_int 255
          / (max_value - min_value))%Qc
    with (rescaled max_value min_value (get s k l)).
  assert (Hrange : forall a b, a < nrows s -> b < ncols s ->
            (0 <= rescaled max_value min_value (get s a b) /\
             rescaled max_value min_value (get s a b)
             <= Exact.of_int 255)%Qc).
  { intros a b Ha Hb. destruct (Hbounds a b Ha Hb) as [H1 H2]. split.
    - rewrite <- (QuantizeFacts.rescaled_min Hne).
      now apply QuantizeFacts.rescaled_le.
    - rewrite <- (QuantizeFacts.rescaled_max Hne).
      now apply QuantizeFacts.rescaled_le. }
  destruct (Hrange i j Hi Hj) as [A0 A1]. destruct (Hrange k l Hk Hl) as [B0 B1].
  destruct (QuantizeFacts.cast_floor A0 A1) as [-> _].
  destruct (QuantizeFacts.cast_floor B0 B1) as [-> _].
  apply Qfloor_resp_le.
  now apply (@QuantizeFacts.rescaled_le max_value min_value).
Qed.

Lemma quantize_keeps_order_witness :
  exists q, quantize surface_2x2 = Some q /\ (get q 0 0 <= get q 1 1)%Z.
Proof.
  destruct (@quantize_spec Qc _ surface_2x2) as (M & m & q & _ & _ & Hq & _);
    [simpl; lia|simpl; lia|].
  exists q. split; [exact Hq|].
  apply (@quantize_keeps_order surface_2x2 (Exact.of_int 3) (Exact.of_int 0)
           q 0 0 1 1); try (simpl; lia); try exact Hq.
  - vm_compute. reflexivity.
  - vm_compute. reflexivity.
  - intros E. apply (f_equal this) in E. vm_compute in E. discriminate.
  - vm_compute. discriminate.
Defined.

(** ** Degenerate surfaces *)

Lemma flat_map_ext_in_list {A B} (f g : A -> list B) (l : list A) :
  (forall x, In x l -> f x = g x) -> flat_map f l = flat_map g l.
Proof.
  induction l as [|x l IH]; intros E; simpl; [reflexivity|].
  rewrite (E x) by now left.
  rewrite IH; [reflexivity|]. intros y Hy. apply E. now right.
Qed.

(** X10: when all samples of the previous 160x160 frame are one value,
    every window holds the same samples, and all the scores of the surface
    are the same, whatever the current frame is and however the floats
    round: the rescale then divides by the difference of two equal
    scores. *)
Theorem constant_previous_frame_is_degenerate {F} `{Float64Ops F}
    (prev cur : array Z) (k : Z) (r c : nat) :
  shape prev = (160, 160) -> shape cur = (160, 160) ->
  (forall i j, i < 160 -> j < 160 -> get prev i j = k) ->
  r < 50 -> c < 50 ->
  exists s, correlation_surface prev cur = Some s /\
            get s r c = get s 0 0.
Proof.
  intros Hp Hc Hk Hr Hcol. destruct (shape_eq Hp) as [Hpn Hpm].
  destruct (@correlation_surface_spec _ _ prev cur Hc) as (s & Hs & _ & _ & Hg);
    try lia.
  exists s. split; [exact Hs|].
  rewrite (Hg r c Hr Hcol), (Hg 0 0) by lia.
  unfold spec_score, template_products. f_equal.
  apply flat_map_ext_in_list; intros i Hi. apply map_ext_in; intros j Hj.
  apply in_seq in Hi, Hj. f_equal.
  unfold normalize_frames; cbn [fst get ewise scale_frame amap full_like full].
  rewrite !Hk by lia. reflexivity.
Qed.

Lemma constant_previous_frame_is_degenerate_witness :
  exists s, correlation_surface (F := Qc) frame_zero frame_two_spots = Some s /\
            get s 7 3 = get s 0 0.
Proof.
  apply (@constant_previous_frame_is_degenerate Qc _ frame_zero
           frame_two_spots 0%Z 7 3); try reflexivity; try lia.
Defined.

Module Binary64Facts.

Lemma finite_cases (c : float) :
  PrimFloat.is_finite c = true ->
  (exists s, Prim2SF c = S754_zero s) \/
  (exists s m e, Prim2SF c = S754_finite s m e).
Proof.
  unfold PrimFloat.is_finite, PrimFloat.is_nan, PrimFloat.is_infinity.
  rewrite !eqb_spec, abs_spec.
  destruct (Prim2SF c) as [s|s| |s m e] eqn:E; intros Hf.
  - left. now exists s.
  - exfalso. destruct s; vm_compute in Hf; discriminate.
  - exfalso. vm_compute in Hf. discriminate.
  - right. now exists s, m, e.
Qed.

(** A finite float less itself is the positive zero. *)
Lemma sub_diag (c : float) :
  PrimFloat.is_finite c = true -> (c - c)%float = 0%float.
Proof.
  intros Hf. apply Prim2SF_inj. rewrite sub_spec.
  destruct (finite_cases c Hf) as [(s & E)|(s & m & e & E)]; rewrite E.
  - destruct s; reflexivity.
  - unfold SF64sub, SFsub. cbv zeta. rewrite Z.sub_diag. reflexivity.
Qed.

Lemma max_diag (c : float) : Binary64.max c c = c.
Proof.
  unfold Binary64.max.
  destruct (PrimFloat.is_nan c); [reflexivity|].
  destruct (PrimFloat.ltb c c); reflexivity.
Qed.

Lemma min_diag (c : float) : Binary64.min c c = c.
Proof.
  unfold Binary64.min.
  destruct (PrimFloat.is_nan c); [reflexivity|].
  destruct (PrimFloat.ltb c c); reflexivity.
Qed.

Lemma fold_constant (f : float -> float -> float) (c : float) (l : list float) :
  f c c = c -> (forall y, In y l -> y = c) -> fold_left f l c = c.
Proof.
  intros Hf. induction l as [|y l IH]; intros Hall; [reflexivity|].
  cbn [fold_left]. rewrite (Hall y) by now left.
  rewrite Hf. apply IH. intros z Hz. apply Hall. now right.
Qed.

End Binary64Facts.

(** X11: in binary64 the rescale of a surface whose scores are all one
    finite value does not guard the division: every rescaled value is
    (c - c) * 255 / (c - c) = 0 / 0, a NaN, which line 42 then casts to
    uint8. *)
Theorem rescale_of_constant_surface_is_nan (h w : nat) (c : float) :
  0 < h -> 0 < w -> PrimFloat.is_finite c = true ->
  exists scaled, rescale (F := float) (full h w c) = Some scaled /\
                 shape scaled = (h, w) /\
                 forall i j, PrimFloat.is_nan (get scaled i j) = true.
Proof.
  intros Hh Hw Hf.
  destruct (flatten_nonempty (full h w c) Hh Hw) as (l & Hl).
  assert (Hall : forall y, In y l -> y = c).
  { intros y Hy.
    assert (Hin : In y (flatten (full h w c))) by (rewrite Hl; now right).
    apply in_flatten in Hin. destruct Hin as (i & j & _ & _ & ->).
    reflexivity. }
  unfold rescale, np_max, np_min. rewrite Hl.
  cbn [get full fmax fmin Binary64.ops].
  rewrite (@Binary64Facts.fold_constant Binary64.max c l
             (Binary64Facts.max_diag c) Hall).
  rewrite (@Binary64Facts.fold_constant Binary64.min c l
             (Binary64Facts.min_diag c) Hall).
  eexists. split; [reflexivity|]. split; [reflexivity|].
  intros i j. cbn [get amap ewise full_like full fdiv fmul fsub of_Z
                   Binary64.ops].
  rewrite Binary64Facts.sub_diag by exact Hf.
  vm_compute. reflexivity.
Qed.

Lemma rescale_of_constant_surface_is_nan_witness :
  exists scaled, rescale (F := float) (full 50 50 1.5%float) = Some scaled /\
                 shape scaled = (50, 50) /\
                 forall i j, PrimFloat.is_nan (get scaled i j) = true.
Proof.
  apply (@rescale_of_constant_surface_is_nan 50 50 1.5%float);
    [lia|lia|vm_compute; reflexivity].
Defined.

(** ** Videos without a pair of frames *)

(** X12: on a video of no frame or of one frame, of any shape, the
    classifier answers [false] and does not raise: there is no pair to
    correlate and no turn to count. *)
Theorem is_triangular_path_without_pairs {F} `{Float64Ops F}
    (video : list (array Z)) :
  length video < 2 -> is_triangular_path video = Some false.
Proof.
  intros Hlen. unfold is_triangular_path.
  now rewrite make_correlation_video_short.
Qed.

Lemma is_triangular_path_without_pairs_witness :
  is_triangular_path (F := Qc) [frame_100] = Some false.
Proof.
  apply (@is_triangular_path_without_pairs Qc _ [frame_100]). simpl. lia.
Defined.

(** ** A brighter pair of frames *)

Module ShiftFacts.

Local Open Scope Qc_scope.

Lemma sum_map_shift (k : Qc) (f : Z -> Qc) (l : list Z) :
  Exact.sum (map (fun p => f p + k) l)
  = Exact.sum (map f l) + Exact.of_int (Z.of_nat (length l)) * k.
Proof.
  induction l as [|x l IH].
  - simpl. rewrite ExactFacts.sum_nil. change (Exact.of_int 0) with 0. ring.
  - cbn [map length]. rewrite !ExactFacts.sum_cons, IH.
    rewrite Nat2Z.inj_succ, <- Z.add_1_l, OffsetFacts.of_int_plus.
    change (Exact.of_int 1) with 1. ring.
Qed.

Lemma scale_nonzero : Exact.of_int 255 <> 0.
Proof.
  intros E. apply (f_equal this) in E. vm_compute in E. discriminate.
Qed.

Lemma scaled_shift (k p : Z) :
  Exact.of_int (k + p) / Exact.of_int 255
  = Exact.of_int p / Exact.of_int 255 + Exact.of_int k / Exact.of_int 255.
Proof.
  rewrite OffsetFacts.of_int_plus. field. exact scale_nonzero.
Qed.

(** The mean of a frame with [k] more in every sample. *)
Lemma mean_shift (k : Z) (a : array Z) :
  (0 < size a)%nat ->
  np_mean (scale_frame (F := Qc) (amap (Z.add k) a))
  = np_mean (scale_frame (F := Qc) a) + Exact.of_int k / Exact.of_int 255.
Proof.
  intros Hpos. unfold np_mean, scale_frame.
  rewrite !flatten_amap, map_map.
  cbn [fdiv fsum of_Z Exact.ops].
  change (size (amap (fun p : Z => Exact.of_int p / Exact.of_int 255)
                     (amap (Z.add k) a))) with (size a).
  change (size (amap (fun p : Z => Exact.of_int p / Exact.of_int 255) a))
    with (size a).
  rewrite (map_ext _ (fun p => Exact.of_int p / Exact.of_int 255
                               + Exact.of_int k / Exact.of_int 255))
    by (intros p; apply scaled_shift).
  rewrite sum_map_shift, flatten_length.
  assert (Hn : Exact.of_int (Z.of_nat (size a)) <> 0)
    by (apply OffsetFacts.of_int_nonzero; lia).
  field. repeat split; solve [exact Hn | exact scale_nonzero].
Qed.

Lemma average_shift (k : Z) (prev cur : array Z) :
  (0 < size prev)%nat -> (0 < size cur)%nat ->
  average_pixel_value (F := Qc) (amap (Z.add k) prev) (amap (Z.add k) cur)
  = average_pixel_value (F := Qc) prev cur
    + Exact.of_int k / Exact.of_int 255.
Proof.
  intros Hp Hc. unfold average_pixel_value.
  rewrite !mean_shift by assumption.
  cbn [fdiv fadd of_Z Exact.ops]. rewrite OffsetFacts.of_int_two.
  field. repeat split; solve [exact OffsetFacts.two_nonzero | exact scale_nonzero].
Qed.

Lemma normalized_shift (k : Z) (prev cur : array Z) (i j : nat) :
  (0 < size prev)%nat -> (0 < size cur)%nat ->
  get (fst (normalize_frames (F := Qc) (amap (Z.add k) prev)
                             (amap (Z.add k) cur))) i j
  = get (fst (normalize_frames (F := Qc) prev cur)) i j /\
  get (snd (normalize_frames (F := Qc) (amap (Z.add k) prev)
                             (amap (Z.add k) cur))) i j
  = get (snd (normalize_frames (F := Qc) prev cur)) i j.
Proof.
  intros Hp Hc. unfold normalize_frames.
  cbn [fst snd get ewise scale_frame amap full_like full].
  rewrite (average_shift k prev cur Hp Hc).
  cbn [fsub fdiv of_Z Exact.ops]. rewrite !scaled_shift.
  split; ring.
Qed.

End ShiftFacts.

(** X13: the surface does not see a change of brightness: in exact
    arithmetic, two 160x160 frames with [k] added to every sample of both
    have the scores of the two frames as they were, since the shared
    offset takes the [k] away. *)
Theorem correlation_surface_brightness_shift (prev cur : array Z) (k : Z)
    (r c : nat) :
  shape prev = (160, 160) -> shape cur = (160, 160) -> r < 50 -> c < 50 ->
  exists s s',
    correlation_surface (F := Qc) prev cur = Some s /\
    correlation_surface (F := Qc) (amap (Z.add k) prev) (amap (Z.add k) cur)
    = Some s' /\
    get s' r c = get s r c.
Proof.
  intros Hp Hc Hr Hcol.
  destruct (shape_eq Hp) as [Hpn Hpm]. destruct (shape_eq Hc) as [Hcn Hcm].
  destruct (@correlation_surface_spec Qc _ prev cur Hc)
    as (s & Hs & _ & _ & Hg); try lia.
  destruct (@correlation_surface_spec Qc _ (amap (Z.add k) prev)
              (amap (Z.add k) cur))
    as (s' & Hs' & _ & _ & Hg'); [exact Hc|simpl; lia|simpl; lia|].
  exists s, s'. split; [exact Hs|]. split; [exact Hs'|].
  rewrite (Hg r c Hr Hcol), (Hg' r c Hr Hcol).
  unfold spec_score, template_products. f_equal.
  assert (Hsp : 0 < size prev) by (unfold size; rewrite Hpn, Hpm; lia).
  assert (Hsc : 0 < size cur) by (unfold size; rewrite Hcn, Hcm; lia).
  apply flat_map_ext; intros i. apply map_ext; intros j.
  destruct (ShiftFacts.normalized_shift k prev cur (r + i) (c + j) Hsp Hsc)
    as [-> _].
  destruct (ShiftFacts.normalized_shift k prev cur (25 + i) (25 + j) Hsp Hsc)
    as [_ ->].
  reflexivity.
Qed.

Lemma correlation_surface_brightness_shift_witness :
  exists s s',
    correlation_surface (F := Qc) frame_zero frame_two_spots = Some s /\
    correlation_surface (F := Qc) (amap (Z.add 7) frame_zero)
                        (amap (Z.add 7) frame_two_spots) = Some s' /\
    get s' 5 25 = get s 5 25.
Proof.
  apply (@correlation_surface_brightness_shift frame_zero frame_two_spots
           7%Z 5 25); [reflexivity|reflexivity|lia|lia].
Defined.

(** ** The shared offset is the midpoint of the two means *)

(** [np.mean] of a scaled frame is the mean of its scaled samples. *)
Lemma mean_of_scaled_samples {F} `{Float64Ops F} (frame : array Z) :
  np_mean (scale_frame frame) = mean_of (scaled_samples frame).
Proof.
  unfold np_mean, mean_of, scaled_samples, scale_frame.
  rewrite flatten_amap, length_map, flatten_length. reflexivity.
Qed.

Lemma average_is_midpoint {F} `{Float64Ops F} (prev cur : array Z) :
  average_pixel_value prev cur = midpoint_of_means prev cur.
Proof.
  unfold average_pixel_value, midpoint_of_means.
  now rewrite !mean_of_scaled_samples.
Qed.

Lemma scaled_samples_length {F} `{Float64Ops F} (frame : array Z) :
  length (scaled_samples frame) = size frame.
Proof. unfold scaled_samples. now rewrite length_map, flatten_length. Qed.

(** A uint8 sample divided by 255 in binary64 lies between 0 and 1: the
    256 quotients are evaluated. *)
Lemma binary64_unit_interval (p : Z) :
  (0 <= p <= 255)%Z ->
  PrimFloat.leb 0 (Binary64.of_int p / Binary64.of_int 255) = true /\
  PrimFloat.leb (Binary64.of_int p / Binary64.of_int 255) 1 = true.
Proof.
  intros Hp.
  assert (Hall : forallb (fun n =>
                   PrimFloat.leb 0 (Binary64.of_int (Z.of_nat n)
                                    / Binary64.of_int 255)
                   && PrimFloat.leb (Binary64.of_int (Z.of_nat n)
                                     / Binary64.of_int 255) 1)
                   (seq 0 256) = true)
    by (vm_compute; reflexivity).
  rewrite forallb_forall in Hall.
  specialize (Hall (Z.to_nat p)). rewrite Z2Nat.id in Hall by lia.
  apply andb_true_iff. apply Hall. apply in_seq. lia.
Qed.

Module MidpointFacts.

Local Open Scope Qc_scope.

Lemma of_int_inj (a b : Z) : Exact.of_int a = Exact.of_int b -> a = b.
Proof.
  unfold Exact.of_int. intros E. apply Q2Qc_eq_iff in E.
  unfold Qeq, inject_Z in E. simpl in E. lia.
Qed.

(** The midpoint of two means less the mean of the pooled samples, for
    [n] samples that add up to [a] and [m] samples that add up to [b]. *)
Lemma midpoint_less_pooled (n m a b : Qc) :
  n <> 0 -> m <> 0 -> n + m <> 0 ->
  (a / n + b / m) / (1 + 1) - (a + b) / (n + m)
  = (n - m) * (b / m - a / n) / ((1 + 1) * (n + m)).
Proof.
  intros Hn Hm Hnm. field.
  repeat split; solve [assumption|exact OffsetFacts.two_nonzero].
Qed.

Lemma midpoint_is_pooled_iff (n m a b : Qc) :
  n <> 0 -> m <> 0 -> n + m <> 0 ->
  (a / n + b / m) / (1 + 1) = (a + b) / (n + m)
  <-> n = m \/ a / n = b / m.
Proof.
  intros Hn Hm Hnm.
  pose proof (@midpoint_less_pooled n m a b Hn Hm Hnm) as D.
  split.
  - intros E. rewrite E in D.
    assert (Z0 : (n - m) * (b / m - a / n) = 0).
    { transitivity ((n - m) * (b / m - a / n) / ((1 + 1) * (n + m))
                    * ((1 + 1) * (n + m))).
      - field.
        repeat split; solve [assumption|exact OffsetFacts.two_nonzero].
      - rewrite <- D. ring. }
    destruct (Qcmult_integral _ _ Z0) as [Z1|Z1].
    + left. now apply ExactFacts.minus_eq_zero.
    + right. symmetry. now apply ExactFacts.minus_eq_zero.
  - intros [E|E]; apply ExactFacts.minus_eq_zero; rewrite D.
    + rewrite E. unfold Qcdiv. ring.
    + rewrite E. unfold Qcdiv. ring.
Qed.

End MidpointFacts.

(** C2: both frames are divided by 255, which puts a uint8 sample between 0
    and 1, in binary64 as in exact arithmetic, and every sample of both
    frames then loses the same scalar, the midpoint of the mean of the
    scaled previous frame and of the mean of the scaled current frame,
    whatever the arithmetic is.  That scalar is computed from the two
    means, not from the pooled samples, and it is not the mean of the
    pooled samples in general: in exact arithmetic, on two frames that are
    not empty, the two are equal exactly when the frames have equally many
    samples or equal means. *)
Theorem C2_shared_offset {F} `{Float64Ops F} (prev cur : array Z) :
  (forall i j,
     get (fst (normalize_frames prev cur)) i j
     = fsub (fdiv (of_Z (get prev i j)) (of_Z 255))
            (midpoint_of_means prev cur) /\
     get (snd (normalize_frames prev cur)) i j
     = fsub (fdiv (of_Z (get cur i j)) (of_Z 255))
            (midpoint_of_means prev cur)) /\
  (forall frame i j,
     frame = prev \/ frame = cur -> (0 <= get frame i j <= 255)%Z ->
     (0 <= get (scale_frame (F := Qc) frame) i j /\
      get (scale_frame (F := Qc) frame) i j <= 1)%Qc /\
     PrimFloat.leb 0 (get (scale_frame (F := float) frame) i j) = true /\
     PrimFloat.leb (get (scale_frame (F := float) frame) i j) 1 = true) /\
  (0 < size prev -> 0 < size cur ->
   (midpoint_of_means (F := Qc) prev cur
    = mean_of (scaled_samples prev ++ scaled_samples cur)
    <-> size prev = size cur \/
        mean_of (scaled_samples (F := Qc) prev)
        = mean_of (scaled_samples (F := Qc) cur))).
Proof.
  split; [|split].
  - intros i j. unfold normalize_frames.
    cbn [fst snd get ewise scale_frame amap full_like full].
    now rewrite average_is_midpoint.
  - intros frame i j _ Hp.
    cbn [get scale_frame amap fdiv of_Z Exact.ops Binary64.ops].
    split; [now apply of_int_unit_interval|].
    now apply binary64_unit_interval.
  - intros Hp Hc. unfold midpoint_of_means, mean_of.
    cbn [fdiv fadd fsum of_Z Exact.ops].
    rewrite ExactFacts.sum_app, length_app, !scaled_samples_length.
    rewrite Nat2Z.inj_add, OffsetFacts.of_int_plus, OffsetFacts.of_int_two.
    assert (Hn : Exact.of_int (Z.of_nat (size prev)) <> 0%Qc)
      by (apply OffsetFacts.of_int_nonzero; lia).
    assert (Hm : Exact.of_int (Z.of_nat (size cur)) <> 0%Qc)
      by (apply OffsetFacts.of_int_nonzero; lia).
    assert (Hnm : (Exact.of_int (Z.of_nat (size prev))
                   + Exact.of_int (Z.of_nat (size cur)))%Qc <> 0%Qc).
    { rewrite <- OffsetFacts.of_int_plus.
      apply OffsetFacts.of_int_nonzero; lia. }
    rewrite (MidpointFacts.midpoint_is_pooled_iff _ _ Hn Hm Hnm).
    split; (intros [E|E]; [left|right; exact E]).
    + apply MidpointFacts.of_int_inj in E. lia.
    + now rewrite E.
Qed.

(** On a black frame and a frame with two spots every sample loses the
    midpoint of the two means; a white 161x161 frame and a black 160x160
    frame, which the correlator accepts, have neither equally many samples
    nor equal means, and the midpoint is not the mean of the pooled
    samples. *)
Lemma C2_shared_offset_witness :
  get (snd (normalize_frames (F := float) frame_zero frame_two_spots)) 10 80
  = fsub (fdiv (of_Z (get frame_two_spots 10 80)) (of_Z 255))
         (midpoint_of_means frame_zero frame_two_spots) /\
  correlate_adjacent_frames (F := Qc) frame_white_161 frame_zero <> None /\
  midpoint_of_means (F := Qc) frame_white_161 frame_zero
  <> mean_of (scaled_samples frame_white_161 ++ scaled_samples frame_zero).
Proof.
  split; [|split].
  - exact (proj2 (proj1 (@C2_shared_offset float _ frame_zero
                           frame_two_spots) 10 80)).
  - destruct (@correlate_spec Qc _ frame_white_161 frame_zero)
      as (q & Hq & _); [reflexivity|simpl; lia|simpl; lia|].
    rewrite Hq. discriminate.
  - intros E.
    apply (proj2 (proj2 (@C2_shared_offset Qc _ frame_white_161
                           frame_zero))) in E.
    + destruct E as [E|E].
      * unfold size, frame_white_161, frame_zero, full in E.
        cbn [nrows ncols] in E. lia.
      * apply (f_equal this) in E. vm_compute in E. discriminate.
    + unfold size, frame_white_161, full; cbn [nrows ncols]; lia.
    + unfold size, frame_zero, full; cbn [nrows ncols]; lia.
Defined.

(** ** Constant frames *)

Lemma fold_idempotent {A} (f : A -> A -> A) (c : A) (l : list A) :
  f c c = c -> (forall y, In y l -> y = c) -> fold_left f l c = c.
Proof.
  intros Hf. induction l as [|y l IH]; intros Hall; [reflexivity|].
  cbn [fold_left]. rewrite (Hall y) by now left.
  rewrite Hf. apply IH. intros z Hz. apply Hall. now right.
Qed.

(** The surface of a constant previous 160x160 frame holds one score. *)
Lemma constant_previous_scores {F} `{Float64Ops F} (prev cur : array Z)
    (k : Z) :
  shape prev = (160, 160) -> shape cur = (160, 160) ->
  (forall i j, i < 160 -> j < 160 -> get prev i j = k) ->
  exists s, correlation_surface prev cur = Some s /\
            nrows s = 50 /\ ncols s = 50 /\
            forall r c, r < 50 -> c < 50 -> get s r c = get s 0 0.
Proof.
  intros Hp Hc Hk. destruct (shape_eq Hp) as [Hpn Hpm].
  destruct (@correlation_surface_spec _ _ prev cur Hc)
    as (s & Hs & Hn & Hm & Hg); try lia.
  exists s. split; [exact Hs|]. split; [exact Hn|]. split; [exact Hm|].
  intros r c Hr Hcol.
  rewrite (Hg r c Hr Hcol), (Hg 0 0) by lia.
  unfold spec_score, template_products. f_equal.
  apply flat_map_ext_in_list; intros i Hi. apply map_ext_in; intros j Hj.
  apply in_seq in Hi, Hj. f_equal.
  unfold normalize_frames; cbn [fst get ewise scale_frame amap full_like full].
  rewrite !Hk by lia. reflexivity.
Qed.

(** C9: on two 160x160 frames that are each of one intensity the
    correlator does not raise.  All the scores of the surface are the same,
    so that its greatest score is its least one (for a maximum and a
    minimum that return [x] on [x] and [x], as those of binary64 do); lines
    38-42 divide by their difference without a guard, and the correlator
    still returns a 50x50 frame, whose samples are integers between 0 and
    255 and all the same. *)
Theorem C9_constant_frames_return {F} `{Float64Ops F} (prev cur : array Z)
    (a b : Z) :
  shape prev = (160, 160) -> shape cur = (160, 160) ->
  (forall i j, i < 160 -> j < 160 -> get prev i j = a) ->
  (forall i j, i < 160 -> j < 160 -> get cur i j = b) ->
  exists s q,
    correlation_surface prev cur = Some s /\
    (forall r c, r < 50 -> c < 50 -> get s r c = get s 0 0) /\
    ((forall x, fmax x x = x) -> (forall x, fmin x x = x) ->
     np_max s = Some (get s 0 0) /\ np_min s = Some (get s 0 0)) /\
    correlate_adjacent_frames prev cur = Some q /\
    shape q = (50, 50) /\
    forall r c, r < 50 -> c < 50 ->
      (0 <= get q r c <= 255)%Z /\ get q r c = get q 0 0.
Proof.
  intros Hp Hc Ha _.
  destruct (@constant_previous_scores _ _ prev cur a Hp Hc Ha)
    as (s & Hs & Hn & Hm & Hsame).
  destruct (@quantize_spec _ _ s) as (M & m & q & HM & Hmin & Hq & Hqn & Hqm & Hg);
    try lia.
  exists s, q. split; [exact Hs|]. split; [exact Hsame|]. split; [|split; [|split]].
  - intros Hmax Hmin'.
    destruct (@flatten_nonempty _ s) as (l & Hl); try lia.
    assert (Hall : forall y, In y l -> y = get s 0 0).
    { intros y Hy.
      assert (Hin : In y (flatten s)) by (rewrite Hl; now right).
      apply in_flatten in Hin. destruct Hin as (i & j & Hi & Hj & ->).
      apply Hsame; lia. }
    unfold np_max, np_min. rewrite Hl.
    rewrite (fold_idempotent fmax l (Hmax _) Hall).
    rewrite (fold_idempotent fmin l (Hmin' _) Hall).
    split; reflexivity.
  - unfold correlate_adjacent_frames. rewrite Hs. exact Hq.
  - unfold shape. congruence.
  - intros r c Hr Hcol. split.
    + rewrite Hg.
      pose proof (to_uint8_range
                    (fdiv (fmul (fsub (get s r c) m) (of_Z 255)) (fsub M m))).
      lia.
    + rewrite !Hg, (Hsame r c Hr Hcol). reflexivity.
Qed.

Lemma C9_constant_frames_return_witness :
  exists s q,
    correlation_surface (F := float) (full 160 160 7%Z) (full 160 160 200%Z)
    = Some s /\
    np_max s = Some (get s 0 0) /\ np_min s = Some (get s 0 0) /\
    correlate_adjacent_frames (F := float) (full 160 160 7%Z)
                              (full 160 160 200%Z) = Some q /\
    shape q = (50, 50) /\ get q 49 49 = get q 0 0.
Proof.
  destruct (@C9_constant_frames_return float _ (full 160 160 7%Z)
              (full 160 160 200%Z) 7%Z 200%Z)
    as (s & q & Hs & _ & Hends & Hq & Hshape & Hsame);
    [reflexivity|reflexivity|intros; reflexivity|intros; reflexivity|].
  destruct (Hends Binary64Facts.max_diag Binary64Facts.min_diag) as [HM Hm].
  exists s, q. repeat split; try assumption.
  apply Hsame; lia.
Defined.
